(** * The Express adapter of Remix: [packages/remix-express/server.ts]

    A shallow embedding of the four functions of the adapter

    - [createRemixHeaders]  (host header collection -> multi-value header set),
    - [createRemixRequest]  (host request -> standardized request),
    - [sendRemixResponse]   (standardized response -> calls on the host response),
    - [createRequestHandler] (the middleware: try { ... } catch { next(error) }),

    together with the properties the specification states about them.

    Conventions.  A JavaScript [throw] (or a rejected promise that is awaited)
    is the left injection of a sum, the thrown value being a [thrown].  The
    calls the adapter performs on the host response and on [next] are recorded,
    in order, in a log; the host response and [next] are parameters that
    decide, from what has been observed so far, whether a call on them
    throws, and so are the constructors that [createRemixRequest] calls. *)

From Stdlib Require Import List String ZArith Lia Bool.
From Stdlib Require Import Strings.Byte.
Import ListNotations.
Open Scope string_scope.
Open Scope list_scope.

Set Implicit Arguments.

(** ** Values *)

(** The value carried by a [throw] or by a rejected promise. *)
Definition thrown := string.

(** A [Buffer], and a chunk travelling on a stream. *)
Definition bytes := list byte.

(** The value of one property of [express.Request["headers"]]:
    [string | string[] | undefined]. *)
Inductive HeaderValue : Type :=
| HUndefined
| HString (s : string)
| HArray (vs : list string).

(** JavaScript truthiness on that type: [undefined] and [""] are falsy, every
    array (the empty one too) is truthy. *)
Definition truthy (values : HeaderValue) : bool :=
  match values with
  | HUndefined => false
  | HString s => negb (s =? "")
  | HArray _ => true
  end.

(** An object with string keys, as [Object.entries] enumerates it: the keys of
    an object are pairwise distinct. *)
Definition entries (A : Type) := list (string * A).

Definition keys {A} (o : entries A) : list string := map fst o.

(** ** The multi-value header set *)

Module NodeHeaders.

(** Modelled from the spec: the [Headers] class is imported from
    [@remix-run/node] and its source is not at hand.  It is "a header
    container where one name may map to several ordered values": [append]
    adds one value after those the name already has, [set] makes a value the
    only one of its name, and [raw] exposes the names with their lists of
    values. *)
Definition t := entries (list string).

Definition empty : t := [].

Fixpoint append (name value : string) (h : t) : t :=
  match h with
  | [] => [(name, [value])]
  | (k, vs) :: rest =>
      if k =? name then (k, vs ++ [value]) :: rest
      else (k, vs) :: append name value rest
  end.

Fixpoint set (name value : string) (h : t) : t :=
  match h with
  | [] => [(name, [value])]
  | (k, vs) :: rest =>
      if k =? name then (k, [value]) :: rest
      else (k, vs) :: set name value rest
  end.

Definition raw (h : t) : entries (list string) := h.

(** All the values held under a name, in order ([[]] when there is none). *)
Fixpoint getAll (name : string) (h : t) : list string :=
  match h with
  | [] => []
  | (k, vs) :: rest => if k =? name then vs else getAll name rest
  end.

Definition has (name : string) (h : t) : bool :=
  existsb (fun kv => fst kv =? name) h.

(** The header lines the set stands for, name by name. *)
Definition lines (h : t) : list (string * string) :=
  flat_map (fun kv => map (pair (fst kv)) (snd kv)) h.

(** The lines of a set under one name. *)
Definition linesFor (name : string) (h : t) : list string :=
  map snd (filter (fun kv => fst kv =? name) (lines h)).

End NodeHeaders.

(** ** createRemixHeaders (server.ts, lines 81-99) *)

(** The body of the outer [for] loop, for one [[key, values]] entry. *)
Definition copyEntry (headers : NodeHeaders.t) (entry : string * HeaderValue)
  : NodeHeaders.t :=
  let (key, values) := entry in
  if truthy values then
    match values with
    | HArray vs =>
        fold_left (fun h value => NodeHeaders.append key value h) vs headers
    | HString s => NodeHeaders.set key s headers
    | HUndefined => headers (* not reached: [undefined] is falsy *)
    end
  else headers.

Definition createRemixHeaders (requestHeaders : entries HeaderValue)
  : NodeHeaders.t :=
  fold_left copyEntry requestHeaders NodeHeaders.empty.

(** ** Streams and the PassThrough relay *)

(** Modelled from the spec: [PassThrough] and [pipe] are imported from the
    platform's [stream] module.  [req.pipe(new PassThrough({ highWaterMark }))]
    is "a bounded-chunk relay that performs no transformation of bytes": the
    source writes its chunks, in order, into the relay's buffer; a write that
    leaves [highWaterMark] bytes or more in the buffer pauses the source until
    the buffer has been drained; the consumer reads buffered chunks from the
    front. *)
Record Relay : Type := mkRelay {
  source : list bytes;      (* chunks the piped stream has still to emit *)
  highWaterMark : Z;
  buffered : list bytes;    (* written into the relay, not read yet *)
  flowing : bool            (* false while the source is paused *)
}.

(** [src.pipe(new PassThrough({ highWaterMark: hwm }))] *)
Definition pipeThrough (src : list bytes) (hwm : Z) : Relay :=
  mkRelay src hwm [] true.

Definition size (chunks : list bytes) : nat := List.length (List.concat chunks).

Inductive RelayAction : Type :=
| Emit               (* the source emits its next chunk into the relay *)
| Read (n : nat).    (* the consumer takes [S n] chunks at once *)

(** One step of the relay; the bytes it hands to the consumer, and the relay
    after it.  [None]: the action is not enabled. *)
Definition relayStep (a : RelayAction) (r : Relay) : option (bytes * Relay) :=
  match a with
  | Emit =>
      match flowing r, source r with
      | true, chunk :: rest =>
          let buf := buffered r ++ [chunk] in
          Some ([], mkRelay rest (highWaterMark r) buf
                      (Z.of_nat (size buf) <? highWaterMark r)%Z)
      | _, _ => None
      end
  | Read n =>
      if (S n <=? List.length (buffered r))%nat then
        let taken := firstn (S n) (buffered r) in
        let left := skipn (S n) (buffered r) in
        Some (List.concat taken,
              mkRelay (source r) (highWaterMark r) left
                (match left with [] => true | _ => flowing r end))
      else None
  end.

(** A schedule of actions; the bytes the consumer has observed at its end. *)
Fixpoint relayRun (sched : list RelayAction) (r : Relay)
  : option (bytes * Relay) :=
  match sched with
  | [] => Some ([], r)
  | a :: sched' =>
      match relayStep a r with
      | None => None
      | Some (out, r') =>
          match relayRun sched' r' with
          | None => None
          | Some (outs, r'') => Some (out ++ outs, r'')
          end
      end
  end.

(** Everything has been emitted and read. *)
Definition drained (r : Relay) : bool :=
  match source r, buffered r with
  | [], [] => true
  | _, _ => false
  end.

(** The schedule that lets every chunk through as soon as it is emitted. *)
Definition eagerSchedule (r : Relay) : list RelayAction :=
  match buffered r with
  | [] => []
  | _ :: l => [Read (List.length l)]
  end ++ flat_map (fun _ => [Emit; Read 0]) (source r).

(** ** createRemixRequest (server.ts, lines 101-115) *)

(** What the adapter reads of an [express.Request]. *)
Record HostRequest : Type := mkHostRequest {
  protocol : string;              (* req.protocol *)
  hostHeader : option string;     (* req.get("host"), [None] for undefined *)
  url : string;                   (* req.url *)
  method : string;                (* req.method *)
  headers : entries HeaderValue;  (* req.headers *)
  body : list bytes               (* the chunks req emits as a readable *)
}.

(** Modelled from the spec: the [Request] class is imported from
    [@remix-run/node]; a standardized request is an "absolute URL, method,
    immutable multi-value header set, optional readable body stream". *)
Record NodeRequest : Type := mkNodeRequest {
  requestUrl : string;
  requestMethod : string;
  requestHeaders : NodeHeaders.t;
  requestBody : option Relay
}.

(** [`${x}`] for a [string | undefined]. *)
Definition template (x : option string) : string :=
  match x with
  | Some s => s
  | None => "undefined"
  end.

(** [String.prototype.toUpperCase], on the letters a-z. *)
Definition upperChar (c : Ascii.ascii) : Ascii.ascii :=
  let n := Ascii.nat_of_ascii c in
  if (97 <=? n)%nat && (n <=? 122)%nat then Ascii.ascii_of_nat (n - 32)
  else c.

Fixpoint toUpperCase (s : string) : string :=
  match s with
  | EmptyString => EmptyString
  | String c s' => String (upperChar c) (toUpperCase s')
  end.

(** What [createRemixRequest] calls outside this file, as far as throwing
    goes. *)
Record Platform : Type := mkPlatform {
  (** [new URL(input, base).toString()]: the serialized URL, or the
      [TypeError] the constructor throws. *)
  newURL : string -> string -> thrown + string;
  (** The [TypeError] that the header set throws while the collection is
      copied into it (a malformed name or value), if any. *)
  headersThrow : entries HeaderValue -> option thrown;
  (** Any other [TypeError] of [new NodeRequest(url, init)], if any. *)
  requestThrows :
    string -> string -> NodeHeaders.t -> option Relay -> option thrown
}.

(** Modelled from the spec: [new NodeRequest(url, init)] of
    [@remix-run/node].  It keeps the invariant that "a request whose method
    is one of the two body-less methods (GET, HEAD) must never carry a body":
    the method is upper-cased, and a body on GET or HEAD is refused with a
    [TypeError]. *)
Definition newNodeRequest (platform : Platform) (href : string)
  (initMethod : string) (initHeaders : NodeHeaders.t)
  (initBody : option Relay) : thrown + NodeRequest :=
  let upper := toUpperCase initMethod in
  match initBody with
  | Some _ =>
      if (upper =? "GET") || (upper =? "HEAD")
      then inl "TypeError: Request with GET/HEAD method cannot have body"
      else
        match requestThrows platform href initMethod initHeaders initBody with
        | Some error => inl error
        | None => inr (mkNodeRequest href upper initHeaders initBody)
        end
  | None =>
      match requestThrows platform href initMethod initHeaders initBody with
      | Some error => inl error
      | None => inr (mkNodeRequest href upper initHeaders initBody)
      end
  end.

Definition createRemixRequest (platform : Platform) (req : HostRequest)
  : thrown + NodeRequest :=
  let origin := (protocol req ++ "://" ++ template (hostHeader req))%string in
  match newURL platform (url req) origin with
  | inl error => inl error
  | inr href =>
      let initMethod := method req in
      match headersThrow platform (headers req) with
      | Some error => inl error
      | None =>
          let initHeaders := createRemixHeaders (headers req) in
          let initBody :=
            if negb (method req =? "GET") && negb (method req =? "HEAD")
            then Some (pipeThrough (body req) 16384)
            else None in
          newNodeRequest platform href initMethod initHeaders initBody
      end
  end.

(** ** The standardized response and the host response *)

(** How a readable stream finishes once its chunks are out. *)
Inductive StreamEnd : Type :=
| Ends
| Fails (error : thrown).

(** A readable response body: the chunks it emits, then its end or its
    failure. *)
Record Readable : Type := mkReadable {
  emits : list bytes;
  finish : StreamEnd
}.

(** [response.body], by the tests [sendRemixResponse] applies to it. *)
Inductive ResponseBody : Type :=
| BodyNull                    (* null or undefined *)
| BodyBuffer (data : bytes)   (* Buffer.isBuffer(body) *)
| BodyStream (s : Readable)   (* body.pipe is there *)
| BodyOther (v : string).     (* any other value: not a Buffer, no pipe *)

(** Modelled from the spec: the [Response] class is imported from
    [@remix-run/node]; a standardized response is an "integer status code,
    multi-value header set, body". *)
Record NodeResponse : Type := mkNodeResponse {
  status : Z;
  responseHeaders : NodeHeaders.t;
  responseBody : ResponseBody
}.

(** The calls that reach an [express.Response]. *)
Inductive ResCall : Type :=
| ResStatus (code : Z)             (* res.status(code) *)
| ResAppend (field value : string) (* res.append(field, value) *)
| ResEnd (data : option bytes)     (* res.end(data) and res.end() *)
| PipeInto (s : Readable)          (* s.pipe(res) *)
| ResWrite (chunk : bytes).        (* res.write(chunk), by a piped stream *)

(** What can be observed of the handling of one request, in order. *)
Inductive Event : Type :=
| OnRes (c : ResCall)           (* a call the host response accepted *)
| Next (error : thrown)         (* next(error) *)
| StreamError (error : thrown). (* the 'error' event of a stream *)

Definition Log := list Event.

(** The calls the host response has accepted, and the values given to
    [next]. *)
Fixpoint writes (log : Log) : list ResCall :=
  match log with
  | [] => []
  | OnRes c :: l => c :: writes l
  | _ :: l => writes l
  end.

Fixpoint forwarded (log : Log) : list thrown :=
  match log with
  | [] => []
  | Next e :: l => e :: forwarded l
  | _ :: l => forwarded l
  end.

(** Modelled from the spec: [express.Response] is imported from [express];
    the host response is a "mutable sink with operations set status, append
    header value, write bytes, end", and appending "never overwrites". *)
Record HostResponse : Type := mkHostResponse {
  statusCode : option Z;
  headerLines : list (string * string);
  written : list bytes;     (* one element for each write *)
  ended : bool
}.

Definition freshResponse : HostResponse := mkHostResponse None [] [] false.

Definition perform (r : HostResponse) (c : ResCall) : HostResponse :=
  match c with
  | ResStatus code =>
      mkHostResponse (Some code) (headerLines r) (written r) (ended r)
  | ResAppend field value =>
      mkHostResponse (statusCode r) (headerLines r ++ [(field, value)])
        (written r) (ended r)
  | ResEnd (Some data) =>
      mkHostResponse (statusCode r) (headerLines r) (written r ++ [data]) true
  | ResEnd None =>
      mkHostResponse (statusCode r) (headerLines r) (written r) true
  | PipeInto _ => r
  | ResWrite chunk =>
      mkHostResponse (statusCode r) (headerLines r) (written r ++ [chunk])
        (ended r)
  end.

(** The host response after the calls of a log. *)
Definition replay (log : Log) : HostResponse :=
  fold_left perform (writes log) freshResponse.

(** The values the host response holds under a header name, in order. *)
Definition headerValues (field : string) (r : HostResponse) : list string :=
  map snd (filter (fun kv => fst kv =? field) (headerLines r)).

(** ** The effects of the adapter *)

(** A computation of the adapter: it extends the log and returns a value or
    throws. *)
Definition M (A : Type) : Type := Log -> Log * (thrown + A).

Definition ret {A} (a : A) : M A := fun log => (log, inr a).

Definition throw {A} (error : thrown) : M A := fun log => (log, inl error).

Definition bind {A B} (m : M A) (k : A -> M B) : M B :=
  fun log =>
    match m log with
    | (log', inl error) => (log', inl error)
    | (log', inr a) => k a log'
    end.

(** [try { body } catch (error) { handler }] *)
Definition tryCatch {A} (body : M A) (handler : thrown -> M A) : M A :=
  fun log =>
    match body log with
    | (log', inl error) => handler error log'
    | done => done
    end.

(** A pure step that returns or throws. *)
Definition lift {A} (r : thrown + A) : M A :=
  match r with
  | inl error => throw error
  | inr a => ret a
  end.

Notation "x <- m ;; k" := (bind m (fun x => k))
  (at level 61, m at next level, right associativity).
Notation "m ;; k" := (bind m (fun _ => k))
  (at level 61, right associativity).

(** [for (const x of xs) { f(x) }] *)
Fixpoint forOf {A} (xs : list A) (f : A -> M unit) : M unit :=
  match xs with
  | [] => ret tt
  | x :: xs' => f x ;; forOf xs' f
  end.

Section Adapter.

(** The host response, from outside: given what has been observed so far,
    whether a call on it throws, and what. *)
Variable hostThrows : Log -> ResCall -> option thrown.

(** A call on the host response. *)
Definition res (c : ResCall) : M unit :=
  fun log =>
    match hostThrows log c with
    | Some error => (log, inl error)
    | None => (log ++ [OnRes c], inr tt)
    end.

(** [next], the third argument of the middleware, from outside: given what
    has been observed so far, whether the call [next(error)] throws, and
    what. *)
Variable nextThrows : Log -> thrown -> option thrown.

(** [next(error)]: the call is made; it returns or throws. *)
Definition next (error : thrown) : M unit :=
  fun log =>
    (log ++ [Next error],
     match nextThrows log error with
     | Some thrownByNext => inl thrownByNext
     | None => inr tt
     end).

(** *** sendRemixResponse (server.ts, lines 117-136) *)

Definition sendRemixResponse (response : NodeResponse) : M unit :=
  res (ResStatus (status response)) ;;
  forOf (NodeHeaders.raw (responseHeaders response)) (fun entry =>
    let (key, values) := entry in
    forOf values (fun value => res (ResAppend key value))) ;;
  match responseBody response with
  | BodyBuffer data => res (ResEnd (Some data))
  | BodyStream s => res (PipeInto s)
  | BodyNull | BodyOther _ => res (ResEnd None)
  end.

(** *** createRequestHandler (server.ts, lines 37-79) *)

(** The value [getLoadContext] computes; the adapter passes it on unread. *)
Definition AppLoadContext := string.

Variable platform : Platform.

(** The optional [getLoadContext] of the options; it returns or throws.
    (It is also given [res]; what it does to it is its own, the log holds
    the calls of the adapter.) *)
Variable getLoadContext : option (HostRequest -> thrown + AppLoadContext).

(** The handler of the runtime, awaited: the response its promise resolves
    to, or the value it rejects with. *)
Variable handleRequest :
  NodeRequest -> option AppLoadContext -> thrown + NodeResponse.

(** [typeof getLoadContext === "function" ? getLoadContext(req, res)
      : undefined] *)
Definition loadContextFor (req : HostRequest) : thrown + option AppLoadContext :=
  match getLoadContext with
  | Some f =>
      match f req with
      | inl error => inl error
      | inr context => inr (Some context)
      end
  | None => inr None
  end.

(** The middleware [async (req, res, next) => { ... }]: the log when its
    promise settles, and whether it resolves ([inr tt]) or rejects. *)
Definition requestHandler (req : HostRequest) : M unit :=
  tryCatch
    (request <- lift (createRemixRequest platform req) ;;
     loadContext <- lift (loadContextFor req) ;;
     response <- lift (handleRequest request loadContext) ;;
     sendRemixResponse response)
    (fun error => next error).

End Adapter.

(** ** After the middleware has settled *)

(** Modelled from the spec: what a piped stream does is the platform's.  The
    sink's "native stream-forwarding mechanism" writes every chunk to the host
    response and "stream completion terminates the response"; a failure is
    "surfaced as a stream error".  These events can reach nothing else:
    [sendRemixResponse] attaches no listener of its own to the stream (line
    132 only calls [pipe]) and does not wait for it, so the [try] of the
    middleware is over when they happen. *)
Definition pipeRelay (s : Readable) : Log :=
  map (fun chunk => OnRes (ResWrite chunk)) (emits s) ++
  match finish s with
  | Ends => [OnRes (ResEnd None)]
  | Fails error => [StreamError error]
  end.

Fixpoint aftermath (log : Log) : Log :=
  match log with
  | [] => []
  | OnRes (PipeInto s) :: l => pipeRelay s ++ aftermath l
  | _ :: l => aftermath l
  end.

(** Everything observable of one request: the middleware, then the streams it
    has piped. *)
Definition history
  (hostThrows : Log -> ResCall -> option thrown)
  (nextThrows : Log -> thrown -> option thrown)
  (platform : Platform)
  (getLoadContext : option (HostRequest -> thrown + AppLoadContext))
  (handleRequest : NodeRequest -> option AppLoadContext -> thrown + NodeResponse)
  (req : HostRequest) : Log :=
  let log :=
    fst (requestHandler hostThrows nextThrows platform getLoadContext
           handleRequest req []) in
  log ++ aftermath log.

(** * Vocabulary of the properties *)

(** Where a line of the header set comes from: the non-empty string of a
    scalar entry, or an element of a list-valued entry. *)
Definition origin (l : entries HeaderValue) (name value : string) : Prop :=
  (In (name, HString value) l /\ value <> "") \/
  (exists vs, In (name, HArray vs) l /\ In value vs).

(** The calls [sendRemixResponse] sets out to perform, in order. *)
Definition headerCalls (h : NodeHeaders.t) : list ResCall :=
  map (fun line => ResAppend (fst line) (snd line)) (NodeHeaders.lines h).

(** A call that writes body bytes or terminates the response. *)
Definition isBodyCall (c : ResCall) : bool :=
  match c with
  | ResEnd _ | PipeInto _ | ResWrite _ => true
  | _ => false
  end.

(** The bytes the relay has still to hand over. *)
Definition pending (r : Relay) : bytes :=
  List.concat (buffered r ++ source r).

(** A paused source has something buffered, so a read is possible. *)
Definition wellPaused (r : Relay) : Prop :=
  buffered r = [] -> flowing r = true.

(** The values an entry of the host collection contributes to the header
    set: none for [undefined] and for [""], the string itself for any other
    scalar, its elements for a list. *)
Definition valuesOf (values : HeaderValue) : list string :=
  match values with
  | HUndefined => []
  | HString s => if s =? "" then [] else [s]
  | HArray vs => vs
  end.

(** The entry of the header set that an entry of the host collection becomes:
    none when it contributes no value. *)
Definition keptEntry (entry : string * HeaderValue) : entries (list string) :=
  match valuesOf (snd entry) with
  | [] => []
  | vs => [(fst entry, vs)]
  end.

(** The last call of [sendRemixResponse], by the body of the response. *)
Definition bodyCall (b : ResponseBody) : ResCall :=
  match b with
  | BodyBuffer data => ResEnd (Some data)
  | BodyStream s => PipeInto s
  | BodyNull | BodyOther _ => ResEnd None
  end.

(** The writes a body that is not a stream amounts to. *)
Definition bodyWrites (b : ResponseBody) : list bytes :=
  match b with
  | BodyBuffer data => [data]
  | _ => []
  end.

Definition isStream (b : ResponseBody) : bool :=
  match b with
  | BodyStream _ => true
  | _ => false
  end.

(** No entry of the set holds an empty list of values. *)
Definition populated (h : NodeHeaders.t) : Prop := Forall (fun kv => snd kv <> []) h.

Section Outcome.

Variable platform : Platform.
Variable getLoadContext : option (HostRequest -> thrown + AppLoadContext).
Variable handleRequest :
  NodeRequest -> option AppLoadContext -> thrown + NodeResponse.

(** A step before the response is sent fails with [error]: the request
    cannot be built, [getLoadContext] throws, or the promise of the runtime
    rejects. *)
Inductive FailsBeforeSending (req : HostRequest) (error : thrown) : Prop :=
| BuildFails :
    createRemixRequest platform req = inl error ->
    FailsBeforeSending req error
| ContextFails request :
    createRemixRequest platform req = inr request ->
    loadContextFor getLoadContext req = inl error ->
    FailsBeforeSending req error
| RuntimeFails request context :
    createRemixRequest platform req = inr request ->
    loadContextFor getLoadContext req = inr context ->
    handleRequest request context = inl error ->
    FailsBeforeSending req error.

(** The runtime answers the request with [response]. *)
Inductive Answers (req : HostRequest) (response : NodeResponse) : Prop :=
| RuntimeAnswers request context :
    createRemixRequest platform req = inr request ->
    loadContextFor getLoadContext req = inr context ->
    handleRequest request context = inr response ->
    Answers req response.

End Outcome.

(** ** Sample inputs *)

(** A platform URL parser that accepts everything, for the examples. *)
Definition joinURL (input base : string) : thrown + string :=
  inr (base ++ input)%string.

(** A platform on which only the refusal of a body on GET and HEAD throws. *)
Definition lenient : Platform :=
  mkPlatform joinURL (fun _ => None) (fun _ _ _ _ => None).

(** A [next] that returns, and one that throws. *)
Definition quietNext (log : Log) (error : thrown) : option thrown := None.

Definition brokenNext (log : Log) (error : thrown) : option thrown :=
  Some "Error: next failed".

(** A host response that accepts every call. *)
Definition quietHost (log : Log) (c : ResCall) : option thrown := None.

(** A HEAD request that carries a body of two bytes. *)
Definition headRequest : HostRequest :=
  mkHostRequest "http" (Some "localhost") "/feed" "HEAD"
    [("accept", HString "text/html")] [[x68; x69]].

(** A POST request whose body arrives in two chunks. *)
Definition postRequest : HostRequest :=
  mkHostRequest "https" (Some "example.com") "/items?x=1" "POST"
    [("content-type", HString "text/plain")] [[x68; x69]; [x21]].

(** A header collection with falsy entries, a scalar and a list. *)
Definition mixedHeaders : entries HeaderValue :=
  [("x-empty", HString ""); ("x-none", HUndefined);
   ("accept", HArray ["text/html"; "application/json"]);
   ("host", HString "example.com")].

(** A host response that, as Express does, refuses a second value for
    Content-Type. *)
Definition contentTypeOnce (log : Log) (c : ResCall) : option thrown :=
  match c with
  | ResAppend field _ =>
      if (field =? "Content-Type") &&
         existsb (fun c' => match c' with
                            | ResAppend field' _ => field' =? "Content-Type"
                            | _ => false
                            end) (writes log)
      then Some "TypeError: Content-Type cannot be set to an Array"
      else None
  | _ => None
  end.

(** A response with two values for Content-Type. *)
Definition twoContentTypes : NodeResponse :=
  mkNodeResponse 200 [("Content-Type", ["text/html"; "text/plain"])] BodyNull.

(** A response whose body is a stream that fails after one chunk. *)
Definition brokenStream : Readable :=
  mkReadable [[x68; x69]] (Fails "ECONNRESET").

Definition streamedResponse : NodeResponse :=
  mkNodeResponse 200 [] (BodyStream brokenStream).

(** A response that carries the two bytes of "ok" in a buffer. *)
Definition okResponse : NodeResponse :=
  mkNodeResponse 200 [("Content-Type", ["text/plain"]); ("Vary", ["a"; "b"])]
    (BodyBuffer [x6f; x6b]).

(** A response whose body is a stream of two chunks that ends. *)
Definition goodStream : Readable :=
  mkReadable [[x68; x69]; [x21]] Ends.

Definition goodStreamResponse : NodeResponse :=
  mkNodeResponse 200 [("Content-Type", ["text/plain"])] (BodyStream goodStream).

(** * Properties *)

(** ** The header set *)

Module HeadersFacts.
Import NodeHeaders.

Lemma keys_append name value h :
  keys (append name value h) =
  if has name h then keys h else keys h ++ [name].
Proof.
  induction h as [|[k vs] rest IH]; simpl; [reflexivity|].
  destruct (k =? name) eqn:E; simpl; [reflexivity|].
  rewrite IH. unfold has. destruct (existsb _ rest); reflexivity.
Qed.

Lemma keys_set name value h :
  keys (set name value h) =
  if has name h then keys h else keys h ++ [name].
Proof.
  induction h as [|[k vs] rest IH]; simpl; [reflexivity|].
  destruct (k =? name) eqn:E; simpl; [reflexivity|].
  rewrite IH. unfold has. destruct (existsb _ rest); reflexivity.
Qed.

Lemma has_keys name (h : t) : has name h = true <-> In name (keys h).
Proof.
  unfold has, keys. rewrite existsb_exists, in_map_iff. split.
  - intros [kv [Hin E]]. apply String.eqb_eq in E. eauto.
  - intros [kv [E Hin]]. exists kv. split; [assumption|].
    now apply String.eqb_eq.
Qed.

Lemma NoDup_snoc (A : Type) (x : A) l :
  NoDup l -> ~ In x l -> NoDup (l ++ [x]).
Proof.
  induction l as [|y l IH]; simpl; intros Hnd Hx.
  - constructor; [easy | constructor].
  - inversion Hnd; subst. constructor.
    + rewrite in_app_iff; simpl. intuition congruence.
    + apply IH; tauto.
Qed.

Lemma keys_grow name (h : t) :
  NoDup (keys h) ->
  NoDup (if has name h then keys h else keys h ++ [name]).
Proof.
  intros Hnd. destruct (has name h) eqn:E; [assumption|].
  apply NoDup_snoc; [assumption|].
  intros Hin. apply has_keys in Hin. congruence.
Qed.

Lemma append_NoDup name value h :
  NoDup (keys h) -> NoDup (keys (append name value h)).
Proof. rewrite keys_append. apply keys_grow. Qed.

Lemma set_NoDup name value h :
  NoDup (keys h) -> NoDup (keys (set name value h)).
Proof. rewrite keys_set. apply keys_grow. Qed.

Lemma has_append name name' value h :
  has name' (append name value h) = (name =? name') || has name' h.
Proof.
  induction h as [|[k vs] rest IH]; simpl.
  - now rewrite orb_false_r.
  - destruct (k =? name) eqn:E; simpl.
    + apply String.eqb_eq in E; subst.
      destruct (name =? name'); reflexivity.
    + fold (has name' (append name value rest)) (has name' (set name value rest)) (has name' rest).
      rewrite IH.
      destruct (k =? name'), (name =? name'); reflexivity.
Qed.

Lemma has_set name name' value h :
  has name' (set name value h) = (name =? name') || has name' h.
Proof.
  induction h as [|[k vs] rest IH]; simpl.
  - now rewrite orb_false_r.
  - destruct (k =? name) eqn:E; simpl.
    + apply String.eqb_eq in E; subst.
      destruct (name =? name'); reflexivity.
    + fold (has name' (append name value rest)) (has name' (set name value rest)) (has name' rest).
      rewrite IH.
      destruct (k =? name'), (name =? name'); reflexivity.
Qed.

Lemma getAll_append name name' value h :
  getAll name' (append name value h) =
  if name =? name' then getAll name' h ++ [value] else getAll name' h.
Proof.
  induction h as [|[k vs] rest IH]; simpl.
  - destruct (name =? name'); reflexivity.
  - destruct (k =? name) eqn:E; simpl.
    + apply String.eqb_eq in E; subst.
      destruct (name =? name'); reflexivity.
    + rewrite IH. destruct (k =? name') eqn:E'; [|reflexivity].
      apply String.eqb_eq in E'; subst. rewrite String.eqb_sym, E.
      reflexivity.
Qed.

Lemma getAll_set name name' value h :
  getAll name' (set name value h) =
  if name =? name' then [value] else getAll name' h.
Proof.
  induction h as [|[k vs] rest IH]; simpl.
  - destruct (name =? name'); reflexivity.
  - destruct (k =? name) eqn:E; simpl.
    + apply String.eqb_eq in E; subst.
      destruct (name =? name'); reflexivity.
    + rewrite IH. destruct (k =? name') eqn:E'; [|reflexivity].
      apply String.eqb_eq in E'; subst. rewrite String.eqb_sym, E.
      reflexivity.
Qed.

Lemma linesFor_absent name (h : t) :
  ~ In name (keys h) -> linesFor name h = [].
Proof.
  unfold linesFor, lines.
  induction h as [|[k vs] rest IH]; simpl; intros Hn; [reflexivity|].
  rewrite filter_app, map_app, IH by tauto.
  rewrite app_nil_r.
  assert (E : (k =? name) = false) by (apply String.eqb_neq; tauto).
  clear -E. induction vs as [|v vs IHv]; simpl; [reflexivity|].
  now rewrite E.
Qed.

(** In a set whose names are distinct, the lines of a name are the list held
    under it. *)
Lemma linesFor_getAll name (h : t) :
  NoDup (keys h) -> linesFor name h = getAll name h.
Proof.
  induction h as [|[k vs] rest IH]; simpl; intros Hnd; [reflexivity|].
  inversion Hnd as [|? ? Hk Hrest]; subst.
  unfold linesFor, lines in *. simpl.
  rewrite filter_app, map_app.
  destruct (k =? name) eqn:E.
  - apply String.eqb_eq in E; subst.
    change (map snd (filter (fun kv => fst kv =? name)
              (flat_map (fun kv => map (pair (fst kv)) (snd kv)) rest)))
      with (linesFor name rest).
    rewrite linesFor_absent, app_nil_r by assumption.
    clear. induction vs as [|v vs IHv]; simpl; [reflexivity|].
    rewrite String.eqb_refl. simpl. now rewrite IHv.
  - rewrite IH by assumption.
    replace (map snd (filter (fun kv => fst kv =? name) (map (pair k) vs)))
      with (@nil string); [reflexivity|].
    clear -E. induction vs as [|v vs IHv]; simpl; [reflexivity|].
    now rewrite E.
Qed.

Lemma lines_append name value h n x :
  In (n, x) (lines (append name value h)) ->
  In (n, x) (lines h) \/ (n, x) = (name, value).
Proof.
  unfold lines.
  induction h as [|[k vs] rest IH]; simpl.
  - intros [E|[]]. right. congruence.
  - destruct (k =? name) eqn:E; simpl; rewrite !in_app_iff.
    + apply String.eqb_eq in E; subst. rewrite map_app, in_app_iff. simpl.
      intros [[H|[H|[]]]|H]; auto.
    + intros [H|H]; auto. apply IH in H. tauto.
Qed.

Lemma lines_set name value h n x :
  In (n, x) (lines (set name value h)) ->
  In (n, x) (lines h) \/ (n, x) = (name, value).
Proof.
  unfold lines.
  induction h as [|[k vs] rest IH]; simpl.
  - intros [E|[]]. right. congruence.
  - destruct (k =? name) eqn:E; simpl; rewrite ?in_app_iff.
    + apply String.eqb_eq in E; subst.
      intros [H|H]; auto.
    + intros [H|H]; auto. apply IH in H. tauto.
Qed.

End HeadersFacts.

(** ** createRemixHeaders *)

Module TranslatorFacts.
Import NodeHeaders HeadersFacts.

Lemma appends_NoDup key vs h :
  NoDup (keys h) ->
  NoDup (keys (fold_left (fun h value => append key value h) vs h)).
Proof.
  revert h. induction vs as [|v vs IH]; simpl; intros h Hnd; [assumption|].
  apply IH. now apply append_NoDup.
Qed.

Lemma copyEntry_NoDup h entry :
  NoDup (keys h) -> NoDup (keys (copyEntry h entry)).
Proof.
  destruct entry as [key [|s|vs]]; simpl; intros Hnd; try assumption.
  - destruct (negb (s =? "")); [now apply set_NoDup | assumption].
  - now apply appends_NoDup.
Qed.

Lemma copyEntries_NoDup requestHeaders h :
  NoDup (keys h) -> NoDup (keys (fold_left copyEntry requestHeaders h)).
Proof.
  revert h. induction requestHeaders as [|entry l IH]; simpl; intros h Hnd;
    [assumption|].
  apply IH. now apply copyEntry_NoDup.
Qed.

(** The names of the set that [createRemixHeaders] returns are distinct. *)
Lemma createRemixHeaders_NoDup requestHeaders :
  NoDup (keys (createRemixHeaders requestHeaders)).
Proof. apply copyEntries_NoDup. constructor. Qed.

Lemma getAll_appends key name vs h :
  getAll name (fold_left (fun h value => append key value h) vs h) =
  if key =? name then getAll name h ++ vs else getAll name h.
Proof.
  revert h. induction vs as [|v vs IH]; simpl; intros h.
  - destruct (key =? name); [now rewrite app_nil_r | reflexivity].
  - rewrite IH, getAll_append.
    destruct (key =? name); [now rewrite <- app_assoc | reflexivity].
Qed.

Lemma has_appends key name vs h :
  has name (fold_left (fun h value => append key value h) vs h) =
  (key =? name) && negb (List.length vs =? 0)%nat || has name h.
Proof.
  revert h. induction vs as [|v vs IH]; simpl; intros h.
  - now rewrite andb_false_r.
  - rewrite IH, has_append.
    destruct (key =? name), (has name h), vs; reflexivity.
Qed.

(** An entry under another name leaves the values of [name] alone. *)
Lemma getAll_copyEntry_other h key values name :
  key <> name -> getAll name (copyEntry h (key, values)) = getAll name h.
Proof.
  intros Hne. apply String.eqb_neq in Hne.
  destruct values as [|s|vs]; simpl; [reflexivity| |].
  - destruct (negb (s =? "")); [|reflexivity].
    now rewrite getAll_set, Hne.
  - now rewrite getAll_appends, Hne.
Qed.

Lemma getAll_copyEntries_absent l h name :
  ~ In name (keys l) ->
  getAll name (fold_left copyEntry l h) = getAll name h.
Proof.
  revert h. induction l as [|[key values] l IH]; simpl; intros h Hn;
    [reflexivity|].
  rewrite IH by tauto. apply getAll_copyEntry_other. tauto.
Qed.

(** A list-valued entry adds its elements, in order, after the values its
    name already has. *)
Lemma getAll_copyEntries_array l h name vs :
  NoDup (keys l) -> In (name, HArray vs) l ->
  getAll name (fold_left copyEntry l h) = getAll name h ++ vs.
Proof.
  revert h. induction l as [|[key values] l IH]; simpl; intros h Hnd Hin;
    [contradiction|].
  inversion Hnd as [|? ? Hk Hl]; subst.
  destruct Hin as [E|Hin].
  - inversion E; subst. rewrite getAll_copyEntries_absent by assumption.
    simpl. now rewrite getAll_appends, String.eqb_refl.
  - rewrite IH by assumption. f_equal.
    apply getAll_copyEntry_other. intros ->.
    apply Hk. change name with (fst (name, HArray vs)). now apply in_map.
Qed.

Lemma has_copyEntry_other h key values name :
  key <> name -> has name (copyEntry h (key, values)) = has name h.
Proof.
  intros Hne. apply String.eqb_neq in Hne.
  destruct values as [|s|vs]; simpl; [reflexivity| |].
  - destruct (negb (s =? "")); [|reflexivity].
    now rewrite has_set, Hne.
  - now rewrite has_appends, Hne.
Qed.

Lemma has_copyEntries_absent l h name :
  ~ In name (keys l) ->
  has name (fold_left copyEntry l h) = has name h.
Proof.
  revert h. induction l as [|[key values] l IH]; simpl; intros h Hn;
    [reflexivity|].
  rewrite IH by tauto. apply has_copyEntry_other. tauto.
Qed.

(** A falsy entry brings no name into the set. *)
Lemma has_copyEntries_falsy l h name values :
  NoDup (keys l) -> In (name, values) l -> truthy values = false ->
  has name (fold_left copyEntry l h) = has name h.
Proof.
  revert h. induction l as [|[key v] l IH]; simpl; intros h Hnd Hin Hf;
    [contradiction|].
  inversion Hnd as [|? ? Hk Hl]; subst.
  destruct Hin as [E|Hin].
  - inversion E; subst. rewrite has_copyEntries_absent by assumption.
    simpl. now rewrite Hf.
  - rewrite (IH _ Hl Hin Hf).
    apply has_copyEntry_other. intros ->.
    apply Hk. change name with (fst (name, values)). now apply in_map.
Qed.

Lemma lines_appends key vs h n x :
  In (n, x) (lines (fold_left (fun h value => append key value h) vs h)) ->
  In (n, x) (lines h) \/ (n = key /\ In x vs).
Proof.
  revert h. induction vs as [|v vs IH]; simpl; intros h Hin; [now left|].
  apply IH in Hin. destruct Hin as [Hin|[-> Hin]]; [|now auto].
  apply lines_append in Hin. destruct Hin as [Hin|E]; [now left|].
  inversion E; subst. auto.
Qed.

Lemma lines_copyEntries l h n x :
  In (n, x) (lines (fold_left copyEntry l h)) ->
  In (n, x) (lines h) \/ origin l n x.
Proof.
  revert h. induction l as [|[key values] l IH]; simpl; intros h Hin;
    [now left|].
  apply IH in Hin. destruct Hin as [Hin|[[Hin Hne]|[vs [Hin Hx]]]].
  - destruct values as [|s|vs]; simpl in Hin; [now left| |].
    + destruct (s =? "") eqn:E; simpl in Hin; [now left|].
      apply lines_set in Hin. destruct Hin as [Hin|E']; [now left|].
      inversion E'; subst. right. left. split; [now left|].
      now apply String.eqb_neq.
    + apply lines_appends in Hin. destruct Hin as [Hin|[-> Hx]]; [now left|].
      right. right. exists vs. split; [now left | assumption].
  - right. left. split; [now right | assumption].
  - right. right. exists vs. split; [now right | assumption].
Qed.

End TranslatorFacts.

(** ** sendRemixResponse *)

Module SenderFacts.

Section Calls.

Variable hostThrows : Log -> ResCall -> option thrown.

Lemma bind_ret_r (m : M unit) log : (m ;; ret tt) log = m log.
Proof.
  unfold bind, ret. destruct (m log) as [log' [e|[]]]; reflexivity.
Qed.

Lemma forOf_app (A : Type) (xs ys : list A) f log :
  forOf (xs ++ ys) f log = (forOf xs f ;; forOf ys f) log.
Proof.
  revert log. induction xs as [|x xs IH]; simpl; intros log; [reflexivity|].
  unfold bind in *. destruct (f x log) as [log' [e|[]]]; [reflexivity|].
  apply IH.
Qed.

Lemma forOf_map (A B : Type) (g : A -> B) xs f log :
  forOf (map g xs) f log = forOf xs (fun x => f (g x)) log.
Proof.
  revert log. induction xs as [|x xs IH]; simpl; intros log; [reflexivity|].
  unfold bind. destruct (f (g x) log) as [log' [e|[]]]; [reflexivity|].
  apply IH.
Qed.

(** The two nested loops over [response.headers.raw()] perform one
    [res.append] for each line of the header set. *)
Lemma header_loops (h : NodeHeaders.t) log :
  forOf (NodeHeaders.raw h) (fun entry =>
    let (key, values) := entry in
    forOf values (fun value => res hostThrows (ResAppend key value))) log =
  forOf (headerCalls h) (res hostThrows) log.
Proof.
  unfold headerCalls, NodeHeaders.lines, NodeHeaders.raw.
  revert log. induction h as [|[key values] h IH]; simpl; intros log;
    [reflexivity|].
  rewrite map_app, forOf_app. unfold bind.
  rewrite map_map, forOf_map. simpl.
  destruct (forOf values _ log) as [log' [e|[]]]; [reflexivity|].
  apply IH.
Qed.

(** What a sequence of calls leaves in the log: all of them when it returns,
    those before the call that threw otherwise. *)
Lemma calls_log cs log :
  match forOf cs (res hostThrows) log with
  | (log', inr _) => log' = log ++ map OnRes cs
  | (log', inl error) =>
      exists before c after,
        cs = before ++ c :: after /\
        log' = log ++ map OnRes before /\
        hostThrows log' c = Some error
  end.
Proof.
  revert log. induction cs as [|c cs IH]; simpl; intros log.
  - now rewrite app_nil_r.
  - unfold bind, res at 1.
    destruct (hostThrows log c) as [error|] eqn:E.
    + exists [], c, cs. simpl. now rewrite app_nil_r.
    + specialize (IH (log ++ [OnRes c])).
      destruct (forOf cs _ (log ++ [OnRes c])) as [log' [error|u]].
      * destruct IH as (before & c' & after & -> & -> & Hthrow).
        exists (c :: before), c', after. simpl.
        rewrite <- app_assoc in *. simpl in *. auto.
      * rewrite IH, <- app_assoc. reflexivity.
Qed.

End Calls.

End SenderFacts.

Module ReplayFacts.

Lemma writes_OnRes cs : writes (map OnRes cs) = cs.
Proof. induction cs as [|c cs IH]; simpl; congruence. Qed.

Lemma forwarded_app l l' : forwarded (l ++ l') = forwarded l ++ forwarded l'.
Proof.
  induction l as [|[c|e|e] l IH]; simpl; congruence.
Qed.

Lemma forwarded_OnRes cs : forwarded (map OnRes cs) = [].
Proof. induction cs as [|c cs IH]; simpl; congruence. Qed.

Lemma headerCalls_no_body h :
  forallb (fun c => negb (isBodyCall c)) (headerCalls h) = true.
Proof.
  unfold headerCalls. induction (NodeHeaders.lines h) as [|[k v] l IH]; simpl;
    congruence.
Qed.

Lemma perform_appends lines r :
  fold_left perform
    (map (fun line => ResAppend (fst line) (snd line)) lines) r =
  mkHostResponse (statusCode r) (headerLines r ++ lines) (written r) (ended r).
Proof.
  revert r. induction lines as [|[k v] l IH]; intros r; simpl.
  - rewrite app_nil_r. now destruct r.
  - rewrite IH. simpl. now rewrite <- app_assoc.
Qed.

(** The host response once the status and the headers have been sent. *)
Lemma replay_head code h :
  replay (map OnRes (ResStatus code :: headerCalls h)) =
  mkHostResponse (Some code) (NodeHeaders.lines h) [] false.
Proof.
  unfold replay. rewrite writes_OnRes. simpl. unfold headerCalls.
  now rewrite perform_appends.
Qed.

Lemma replay_snoc cs c :
  replay (map OnRes (cs ++ [c])) = perform (replay (map OnRes cs)) c.
Proof.
  unfold replay. rewrite !writes_OnRes, fold_left_app. reflexivity.
Qed.

(** The host response once [sendRemixResponse] has returned. *)
Lemma replay_sent code h c :
  replay (map OnRes (ResStatus code :: headerCalls h ++ [c])) =
  perform (mkHostResponse (Some code) (NodeHeaders.lines h) [] false) c.
Proof.
  rewrite app_comm_cons, replay_snoc, replay_head. reflexivity.
Qed.

End ReplayFacts.

Section SendRemixResponse.

Import SenderFacts ReplayFacts.

Variable hostThrows : Log -> ResCall -> option thrown.

(** [sendRemixResponse] is a fixed sequence of calls on the host response:
    the status, one append for each header line, the call for the body. *)
Lemma send_calls response log :
  sendRemixResponse hostThrows response log =
  forOf (ResStatus (status response)
           :: headerCalls (responseHeaders response)
           ++ [match responseBody response with
               | BodyBuffer data => ResEnd (Some data)
               | BodyStream s => PipeInto s
               | BodyNull | BodyOther _ => ResEnd None
               end])
        (res hostThrows) log.
Proof.
  unfold sendRemixResponse. simpl. unfold bind.
  destruct (res hostThrows (ResStatus (status response)) log)
    as [log1 [e|[]]]; [reflexivity|].
  rewrite forOf_app, header_loops. unfold bind.
  destruct (forOf (headerCalls _) _ log1) as [log2 [e|[]]]; [reflexivity|].
  simpl. rewrite bind_ret_r.
  destruct (responseBody response); reflexivity.
Qed.

End SendRemixResponse.

(** ** The relay *)

Module RelayFacts.

Lemma step_pending a r out r' :
  relayStep a r = Some (out, r') -> out ++ pending r' = pending r.
Proof.
  unfold relayStep, pending. destruct a as [|n].
  - destruct (flowing r); [|discriminate].
    destruct (source r) as [|chunk rest]; [discriminate|].
    intros E; inversion E; subst; simpl.
    now rewrite <- app_assoc.
  - destruct (S n <=? List.length (buffered r))%nat; [|discriminate].
    intros E; inversion E; subst; clear E. cbn [buffered source].
    transitivity
      (List.concat ((firstn (S n) (buffered r) ++ skipn (S n) (buffered r))
                      ++ source r)).
    + now rewrite <- app_assoc, !concat_app.
    + now rewrite firstn_skipn.
Qed.

Lemma step_wellPaused a r out r' :
  relayStep a r = Some (out, r') -> wellPaused r'.
Proof.
  unfold relayStep, wellPaused. destruct a as [|n].
  - destruct (flowing r); [|discriminate].
    destruct (source r); [discriminate|].
    intros E; inversion E; subst; simpl.
    intros H. now destruct (buffered r).
  - destruct (S n <=? List.length (buffered r))%nat; [|discriminate].
    intros E; inversion E; subst; clear E. cbn [buffered flowing].
    now intros ->.
Qed.

Lemma run_pending sched r out r' :
  relayRun sched r = Some (out, r') -> out ++ pending r' = pending r.
Proof.
  revert r out. induction sched as [|a sched IH]; simpl; intros r out.
  - intros E; inversion E; reflexivity.
  - destruct (relayStep a r) as [[o r1]|] eqn:Ha; [|discriminate].
    destruct (relayRun sched r1) as [[os r2]|] eqn:Hs; [|discriminate].
    intros E; inversion E; subst.
    rewrite <- app_assoc, (IH _ _ Hs). now apply step_pending with a.
Qed.

Lemma run_wellPaused sched r out r' :
  wellPaused r -> relayRun sched r = Some (out, r') -> wellPaused r'.
Proof.
  revert r out. induction sched as [|a sched IH]; simpl; intros r out Hw.
  - intros E; inversion E; subst; assumption.
  - destruct (relayStep a r) as [[o r1]|] eqn:Ha; [|discriminate].
    destruct (relayRun sched r1) as [[os r2]|] eqn:Hs; [|discriminate].
    intros E; inversion E; subst.
    apply (IH _ _ (step_wellPaused _ _ Ha) Hs).
Qed.

Lemma drained_pending r : drained r = true -> pending r = [].
Proof.
  unfold drained, pending.
  destruct (source r), (buffered r); try discriminate. reflexivity.
Qed.

(** With an empty buffer and a flowing source, each chunk goes in and out. *)
Lemma one_by_one src hwm :
  exists out,
    relayRun (flat_map (fun _ => [Emit; Read 0]) src)
      (mkRelay src hwm [] true) = Some (out, mkRelay [] hwm [] true).
Proof.
  induction src as [|chunk src [out IH]].
  - exists []. reflexivity.
  - exists ((chunk ++ []) ++ out). simpl. rewrite IH. reflexivity.
Qed.

(** From any well-paused state the eager schedule delivers what is left. *)
Lemma eager_drains r :
  wellPaused r ->
  exists out r',
    relayRun (eagerSchedule r) r = Some (out, r') /\ drained r' = true.
Proof.
  unfold wellPaused, eagerSchedule. destruct r as [src hwm buf fl]; simpl.
  destruct buf as [|chunk buf]; intros Hw.
  - rewrite Hw by reflexivity. destruct (one_by_one src hwm) as [out E].
    simpl. rewrite E. eauto.
  - destruct (one_by_one src hwm) as [out E].
    cbn [app relayRun relayStep buffered source highWaterMark flowing].
    cbn [List.length]. rewrite Nat.leb_refl.
    change (skipn (S (List.length buf)) (chunk :: buf))
      with (skipn (List.length buf) buf).
    rewrite skipn_all. rewrite E. eauto.
Qed.

End RelayFacts.

(** ** The middleware *)

Section Handling.

Variable hostThrows : Log -> ResCall -> option thrown.
Variable nextThrows : Log -> thrown -> option thrown.
Variable platform : Platform.
Variable getLoadContext : option (HostRequest -> thrown + AppLoadContext).
Variable handleRequest :
  NodeRequest -> option AppLoadContext -> thrown + NodeResponse.

Lemma handler_fails_before req error :
  FailsBeforeSending platform getLoadContext handleRequest req error ->
  requestHandler hostThrows nextThrows platform getLoadContext handleRequest
    req [] =
  next nextThrows error [].
Proof.
  unfold requestHandler, tryCatch, bind.
  intros [E|request E1 E2|request context E1 E2 E3].
  - rewrite E. reflexivity.
  - rewrite E1. simpl. rewrite E2. reflexivity.
  - rewrite E1. simpl. rewrite E2. simpl. rewrite E3. reflexivity.
Qed.

Lemma handler_answers req response :
  Answers platform getLoadContext handleRequest req response ->
  requestHandler hostThrows nextThrows platform getLoadContext handleRequest
    req [] =
  match sendRemixResponse hostThrows response [] with
  | (sent, inl error) => next nextThrows error sent
  | done => done
  end.
Proof.
  unfold requestHandler, tryCatch, bind.
  intros [request context E1 E2 E3].
  rewrite E1. simpl. rewrite E2. simpl. rewrite E3. simpl.
  destruct (sendRemixResponse hostThrows response []) as [sent [e|[]]];
    reflexivity.
Qed.

(** Each request either meets a failure before sending or gets an answer. *)
Lemma fails_or_answers req :
  (exists error,
      FailsBeforeSending platform getLoadContext handleRequest req error) \/
  (exists response, Answers platform getLoadContext handleRequest req response).
Proof.
  destruct (createRemixRequest platform req) as [e|request] eqn:E1.
  - left. exists e. now apply BuildFails.
  - destruct (loadContextFor getLoadContext req) as [e|context] eqn:E2.
    + left. exists e. now apply ContextFails with request.
    + destruct (handleRequest request context) as [e|response] eqn:E3.
      * left. exists e. now apply RuntimeFails with request context.
      * right. exists response. now apply RuntimeAnswers with request context.
Qed.

(** What [sendRemixResponse] leaves in an empty log. *)
Lemma send_outcome response :
  match sendRemixResponse hostThrows response [] with
  | (sent, inr _) =>
      exists bodyCall,
        isBodyCall bodyCall = true /\
        sent = map OnRes (ResStatus (status response)
                 :: headerCalls (responseHeaders response) ++ [bodyCall])
  | (sent, inl error) =>
      exists before c, sent = map OnRes before /\
        hostThrows sent c = Some error /\
        forallb (fun c => negb (isBodyCall c)) before = true
  end.
Proof.
  rewrite send_calls.
  pose proof (SenderFacts.calls_log hostThrows
    (ResStatus (status response)
       :: headerCalls (responseHeaders response)
       ++ [match responseBody response with
           | BodyBuffer data => ResEnd (Some data)
           | BodyStream s => PipeInto s
           | BodyNull | BodyOther _ => ResEnd None
           end]) []) as H.
  destruct (forOf _ _ []) as [sent [error|u]].
  - destruct H as (before & c & after & Hs & -> & Hthrow).
    exists before, c. repeat split; try assumption.
    assert (Hall : forallb (fun c => negb (isBodyCall c))
              (ResStatus (status response)
                 :: headerCalls (responseHeaders response)) = true)
      by (simpl; apply ReplayFacts.headerCalls_no_body).
    rewrite app_comm_cons in Hs.
    revert Hs Hall.
    generalize (ResStatus (status response)
                  :: headerCalls (responseHeaders response)).
    clear. intros l. revert before.
    induction l as [|x l IH]; intros before Hs Hall.
    + destruct before as [|y [|z before]]; try reflexivity; discriminate.
    + simpl in Hall. apply andb_prop in Hall. destruct Hall as [Hx Hl].
      destruct before as [|y before]; [reflexivity|].
      simpl in Hs. inversion Hs; subst. simpl. rewrite Hx.
      now apply IH.
  - simpl in H. subst sent. eexists. split; [|reflexivity].
    destruct (responseBody response); reflexivity.
Qed.

End Handling.

(** ** The calls of the sender, one by one *)

Module CallFacts.

Section Calls.

Variable hostThrows : Log -> ResCall -> option thrown.

(** A sequence of calls returns exactly when the host response accepts each
    call after those before it. *)
Lemma calls_return_iff cs log :
  snd (forOf cs (res hostThrows) log) = inr tt <->
  (forall before c after,
      cs = before ++ c :: after ->
      hostThrows (log ++ map OnRes before) c = None).
Proof.
  revert log. induction cs as [|c0 cs IH]; intros log; simpl.
  - split; [|reflexivity].
    intros _ [|x before] c after E; discriminate.
  - unfold bind, res at 1.
    destruct (hostThrows log c0) as [error|] eqn:E0.
    + split; [discriminate|]. intros H.
      specialize (H [] c0 cs eq_refl). simpl in H.
      rewrite app_nil_r in H. congruence.
    + rewrite IH. split.
      * intros H [|x before] c after E; simpl in E; inversion E; subst.
        -- simpl. now rewrite app_nil_r.
        -- simpl. specialize (H before c after eq_refl).
           now rewrite <- app_assoc in H.
      * intros H before c after E. subst cs.
        specialize (H (c0 :: before) c after eq_refl). simpl in H.
        now rewrite <- app_assoc.
Qed.

(** When a sequence of calls throws, it is at the first call that the host
    response refuses, with the value of that refusal. *)
Lemma calls_first_refusal cs log log' error :
  forOf cs (res hostThrows) log = (log', inl error) ->
  exists before c after,
    cs = before ++ c :: after /\
    log' = log ++ map OnRes before /\
    hostThrows log' c = Some error /\
    (forall pre c' post,
        before = pre ++ c' :: post ->
        hostThrows (log ++ map OnRes pre) c' = None).
Proof.
  revert log. induction cs as [|c0 cs IH]; intros log; simpl.
  - discriminate.
  - unfold bind, res at 1.
    destruct (hostThrows log c0) as [e0|] eqn:E0.
    + intros E; inversion E; subst. exists [], c0, cs. simpl.
      rewrite app_nil_r. repeat split; try assumption.
      intros [|x pre] c' post Hp; discriminate.
    + intros H. apply IH in H.
      destruct H as (before & c & after & -> & -> & Hthrow & Hacc).
      exists (c0 :: before), c, after. simpl.
      rewrite <- app_assoc in *. simpl in *. repeat split; try assumption.
      intros [|x pre] c' post Hp; simpl in Hp; inversion Hp; subst.
      * simpl. now rewrite app_nil_r.
      * simpl. specialize (Hacc pre c' post eq_refl).
        now rewrite <- app_assoc in Hacc.
Qed.

(** [sendRemixResponse], with its last call named. *)
Lemma send_script response log :
  sendRemixResponse hostThrows response log =
  forOf (ResStatus (status response)
           :: headerCalls (responseHeaders response)
           ++ [bodyCall (responseBody response)])
        (res hostThrows) log.
Proof. apply send_calls. Qed.

(** What [sendRemixResponse] leaves in an empty log when it returns. *)
Lemma send_returned response :
  snd (sendRemixResponse hostThrows response []) = inr tt ->
  fst (sendRemixResponse hostThrows response []) =
  map OnRes (ResStatus (status response)
               :: headerCalls (responseHeaders response)
               ++ [bodyCall (responseBody response)]).
Proof.
  rewrite send_script.
  match goal with
  | |- context [forOf ?cs _ []] =>
      pose proof (SenderFacts.calls_log hostThrows cs []) as H;
      destruct (forOf cs _ []) as [sent [error|u]]
  end; [discriminate|].
  intros _. exact H.
Qed.

End Calls.

Lemma replay_app_Next l error : replay (l ++ [Next error]) = replay l.
Proof.
  unfold replay. f_equal.
  induction l as [|[c|e|e] l IH]; simpl; congruence.
Qed.

(** Calls that are not body calls write no byte, do not end the response and
    pipe no stream. *)
Lemma no_body_call_untouched cs r :
  forallb (fun c => negb (isBodyCall c)) cs = true ->
  written (fold_left perform cs r) = written r /\
  ended (fold_left perform cs r) = ended r.
Proof.
  revert r. induction cs as [|c cs IH]; simpl; intros r H; [tauto|].
  apply andb_prop in H. destruct H as [Hc Hcs].
  destruct (IH (perform r c) Hcs) as [-> ->].
  destruct c as [code|field value|[data|]|s|chunk]; simpl in *;
    try discriminate; tauto.
Qed.

Lemma no_body_call_aftermath cs l :
  forallb (fun c => negb (isBodyCall c)) cs = true ->
  aftermath (map OnRes cs ++ l) = aftermath l.
Proof.
  induction cs as [|c cs IH]; simpl; intros H; [reflexivity|].
  apply andb_prop in H. destruct H as [Hc Hcs].
  destruct c; simpl in *; try discriminate; now apply IH.
Qed.

(** The streams piped by a sender that has returned. *)
Lemma aftermath_sent code h b :
  aftermath (map OnRes (ResStatus code :: headerCalls h ++ [bodyCall b])) =
  match b with
  | BodyStream s => pipeRelay s
  | _ => []
  end.
Proof.
  rewrite app_comm_cons, map_app, no_body_call_aftermath.
  - destruct b; simpl; try reflexivity. now rewrite app_nil_r.
  - simpl. apply ReplayFacts.headerCalls_no_body.
Qed.

Lemma writes_append l l' : writes (l ++ l') = writes l ++ writes l'.
Proof.
  induction l as [|[c|e|e] l IH]; simpl; congruence.
Qed.

Lemma replay_app l l' :
  replay (l ++ l') = fold_left perform (writes l') (replay l).
Proof. unfold replay. now rewrite writes_append, fold_left_app. Qed.

Lemma perform_writes chunks r :
  fold_left perform (map ResWrite chunks) r =
  mkHostResponse (statusCode r) (headerLines r) (written r ++ chunks)
    (ended r).
Proof.
  revert r. induction chunks as [|chunk chunks IH]; intros r; simpl.
  - rewrite app_nil_r. now destruct r.
  - rewrite IH. simpl. now rewrite <- app_assoc.
Qed.

End CallFacts.

(** ** The scenario of the specification *)

(** A GET request with [Accept: text/html, application/json], answered by
    [200], [Content-Type: text/plain] and the two bytes of "ok": the
    standardized request holds both values in order and has no body; the host
    response gets the status, the header and the bytes, then is ended, and
    [next] is not called. *)
Example scenario_request :
  createRemixRequest lenient
    (mkHostRequest "http" (Some "localhost:3000") "/" "GET"
       [("accept", HArray ["text/html"; "application/json"])] []) =
  inr (mkNodeRequest "http://localhost:3000/" "GET"
         [("accept", ["text/html"; "application/json"])] None).
Proof. reflexivity. Qed.

Example scenario_response :
  requestHandler quietHost quietNext lenient None
    (fun _ _ => inr (mkNodeResponse 200 [("Content-Type", ["text/plain"])]
                       (BodyBuffer [x6f; x6b])))
    (mkHostRequest "http" (Some "localhost:3000") "/" "GET"
       [("accept", HArray ["text/html"; "application/json"])] []) [] =
  ([OnRes (ResStatus 200); OnRes (ResAppend "Content-Type" "text/plain");
    OnRes (ResEnd (Some [x6f; x6b]))], inr tt).
Proof. reflexivity. Qed.

(** * The claims *)

(** C2: for a host request whose method is GET or HEAD, the standardized
    request that [createRemixRequest] builds has no body, whatever body the
    host request carries; and [createRemixRequest] returns that request
    unless the URL constructor, the header set or the Request constructor
    throws. *)
Theorem get_head_no_body platform req :
  method req = "GET" \/ method req = "HEAD" ->
  match createRemixRequest platform req with
  | inr request => requestBody request = None
  | inl error =>
      let origin :=
        (protocol req ++ "://" ++ template (hostHeader req))%string in
      newURL platform (url req) origin = inl error \/
      headersThrow platform (headers req) = Some error \/
      exists href,
        newURL platform (url req) origin = inr href /\
        requestThrows platform href (method req)
          (createRemixHeaders (headers req)) None = Some error
  end.
Proof.
  unfold createRemixRequest. intros Hm.
  destruct (newURL platform _ _) as [error|href] eqn:Hurl; [now left|].
  destruct (headersThrow platform _) as [error|] eqn:Hh; [now right; left|].
  assert (Hbody : (if negb (method req =? "GET") && negb (method req =? "HEAD")
                   then Some (pipeThrough (body req) 16384)
                   else None) = None)
    by (destruct Hm as [-> | ->]; reflexivity).
  rewrite Hbody. unfold newNodeRequest.
  destruct (requestThrows platform _ _ _ _) as [error|] eqn:Hr.
  - right. right. exists href. split; [reflexivity | exact Hr].
  - reflexivity.
Qed.

Lemma get_head_no_body_witness :
  method headRequest = "HEAD" /\
  match createRemixRequest lenient headRequest with
  | inr request => requestBody request = None
  | inl _ => False
  end.
Proof.
  split; [reflexivity|].
  exact (get_head_no_body lenient headRequest (or_intror eq_refl)).
Defined.

(** C8: for a host request whose method is neither GET nor HEAD, the body of
    the standardized request is the host request's stream piped through a
    relay of high-water mark 16384, and under every schedule of emissions and
    reads the bytes observed on it are a prefix of the bytes of the host
    request's body, are all of them once the relay is drained, and can always
    be completed to all of them: same bytes, same order, none dropped.  (The
    body need not even be non-empty.) *)
Theorem body_bytes_relayed platform req request :
  method req <> "GET" -> method req <> "HEAD" ->
  createRemixRequest platform req = inr request ->
  exists relay,
    requestBody request = Some relay /\
    highWaterMark relay = 16384%Z /\
    forall sched out r,
      relayRun sched relay = Some (out, r) ->
      (exists rest, List.concat (body req) = out ++ rest) /\
      (drained r = true -> out = List.concat (body req)) /\
      (exists sched' out' r',
          relayRun sched' r = Some (out', r') /\
          drained r' = true /\
          out ++ out' = List.concat (body req)).
Proof.
  intros Hget Hhead. unfold createRemixRequest.
  destruct (newURL platform _ _) as [error|href]; [discriminate|].
  destruct (headersThrow platform _) as [error|]; [discriminate|].
  apply String.eqb_neq in Hget, Hhead. rewrite Hget, Hhead. simpl.
  unfold newNodeRequest.
  destruct (_ || _); [discriminate|].
  destruct (requestThrows platform _ _ _ _) as [error|]; [discriminate|].
  intros E; inversion E; subst; clear E. simpl.
  exists (pipeThrough (body req) 16384).
  split; [reflexivity|]. split; [reflexivity|].
  intros sched out r Hrun.
  pose proof (RelayFacts.run_pending _ _ Hrun) as Hp.
  change (pending (pipeThrough (body req) 16384))
    with (List.concat (body req)) in Hp.
  split; [|split].
  - exists (pending r). now rewrite Hp.
  - intros Hd.
    rewrite (RelayFacts.drained_pending _ Hd), app_nil_r in Hp. now rewrite Hp.
  - assert (Hw : wellPaused r).
    { eapply RelayFacts.run_wellPaused; [|eassumption].
      intros _. reflexivity. }
    destruct (RelayFacts.eager_drains Hw) as (out' & r' & Hrun' & Hd).
    exists (eagerSchedule r), out', r'. repeat split; try assumption.
    apply RelayFacts.run_pending in Hrun'.
    rewrite (RelayFacts.drained_pending _ Hd), app_nil_r in Hrun'.
    now rewrite Hrun', Hp.
Qed.

Lemma body_bytes_relayed_witness :
  method postRequest <> "GET" /\ method postRequest <> "HEAD" /\
  exists request relay,
    createRemixRequest lenient postRequest = inr request /\
    requestBody request = Some relay /\
    (forall sched out r,
        relayRun sched relay = Some (out, r) -> drained r = true ->
        out = [x68; x69; x21]) /\
    (exists sched r,
        relayRun sched relay = Some ([x68; x69; x21], r) /\
        drained r = true).
Proof.
  split; [discriminate|]. split; [discriminate|].
  eexists.
  destruct (@body_bytes_relayed lenient postRequest _
              ltac:(discriminate) ltac:(discriminate) eq_refl)
    as (relay & Hbody & _ & Hrun).
  exists relay. split; [reflexivity|]. split; [exact Hbody|]. split.
  - intros sched out r H Hd. destruct (Hrun sched out r H) as (_ & Hall & _).
    exact (Hall Hd).
  - destruct (Hrun [] [] relay eq_refl) as (_ & _ & sched & out & r & H & Hd & E).
    exists sched, r. simpl in E. rewrite <- E. split; assumption.
Defined.

(** C6, as stated, fails: an empty string that is an element of a
    list-valued entry is emitted as a header value. *)
Lemma empty_value_in_list_is_emitted :
  NodeHeaders.lines (createRemixHeaders [("set-cookie", HArray [""])]) =
  [("set-cookie", "")].
Proof. reflexivity. Qed.

(** C6, amended: every entry whose value is absent or falsy ([undefined] or
    the empty string) is skipped, so that the header set has no line for its
    name; every line of the set is either the non-empty string of a scalar
    entry or an element of a list-valued entry; and every element of a
    list-valued entry is appended under the entry's name, in order, the empty
    string like any other element. *)
Theorem falsy_entries_skipped requestHeaders :
  NoDup (keys requestHeaders) ->
  (forall name values,
      In (name, values) requestHeaders -> truthy values = false ->
      NodeHeaders.has name (createRemixHeaders requestHeaders) = false /\
      forall value,
        ~ In (name, value)
            (NodeHeaders.lines (createRemixHeaders requestHeaders))) /\
  (forall name value,
      In (name, value) (NodeHeaders.lines (createRemixHeaders requestHeaders)) ->
      (In (name, HString value) requestHeaders /\ value <> "") \/
      (exists vs, In (name, HArray vs) requestHeaders /\ In value vs)) /\
  (forall name vs,
      In (name, HArray vs) requestHeaders ->
      NodeHeaders.getAll name (createRemixHeaders requestHeaders) = vs /\
      forall value,
        In value vs ->
        In (name, value)
           (NodeHeaders.lines (createRemixHeaders requestHeaders))).
Proof.
  intros Hnd.
  assert (Horigin : forall name value,
    In (name, value) (NodeHeaders.lines (createRemixHeaders requestHeaders)) ->
    origin requestHeaders name value).
  { intros name value Hin.
    apply TranslatorFacts.lines_copyEntries in Hin.
    destruct Hin as [[]|Hin]. exact Hin. }
  split; [|split; [exact Horigin|]].
  - intros name values Hin Hfalsy. split.
    + unfold createRemixHeaders.
      now rewrite TranslatorFacts.has_copyEntries_falsy with (values := values).
    + intros value Hline. apply Horigin in Hline.
      assert (Hsame : forall v, In (name, v) requestHeaders -> v = values).
      { clear -Hnd Hin. induction requestHeaders as [|[k w] l IH];
          [contradiction|].
        inversion Hnd as [|? ? Hk Hl]; subst. intros v Hv.
        destruct Hin as [E|Hin], Hv as [E'|Hv]; try congruence.
        - inversion E; subst. exfalso. apply Hk.
          change name with (fst (name, v)). now apply in_map.
        - inversion E'; subst. exfalso. apply Hk.
          change name with (fst (name, values)). now apply in_map.
        - now apply IH. }
      destruct Hline as [[Hs Hne]|[vs [Hvs _]]].
      * apply Hsame in Hs. subst values. simpl in Hfalsy.
        apply negb_false_iff, String.eqb_eq in Hfalsy. contradiction.
      * apply Hsame in Hvs. subst values. discriminate.
  - intros name vs Hin.
    assert (Hget : NodeHeaders.getAll name (createRemixHeaders requestHeaders)
                   = vs).
    { unfold createRemixHeaders.
      now rewrite TranslatorFacts.getAll_copyEntries_array with (vs := vs). }
    split; [exact Hget|].
    intros value Hvalue.
    rewrite <- Hget in Hvalue.
    rewrite <- HeadersFacts.linesFor_getAll in Hvalue
      by apply TranslatorFacts.createRemixHeaders_NoDup.
    unfold NodeHeaders.linesFor in Hvalue.
    apply in_map_iff in Hvalue. destruct Hvalue as ([k v] & Hv & Hline).
    apply filter_In in Hline. destruct Hline as [Hline Hk].
    simpl in Hv, Hk. apply String.eqb_eq in Hk. now subst.
Qed.

Lemma falsy_entries_skipped_witness :
  NoDup (keys mixedHeaders) /\
  NodeHeaders.has "x-empty" (createRemixHeaders mixedHeaders) = false /\
  NodeHeaders.has "x-none" (createRemixHeaders mixedHeaders) = false /\
  NodeHeaders.getAll "set-cookie"
    (createRemixHeaders [("set-cookie", HArray [""; "a=1"; ""])]) =
  [""; "a=1"; ""].
Proof.
  assert (Hnd : NoDup (keys mixedHeaders)).
  { repeat constructor; simpl; intuition discriminate. }
  split; [exact Hnd|].
  destruct (@falsy_entries_skipped mixedHeaders Hnd) as (Hskip & _ & _).
  split; [|split].
  - apply (Hskip "x-empty" (HString "")); [simpl; tauto | reflexivity].
  - apply (Hskip "x-none" HUndefined); [simpl; tauto | reflexivity].
  - refine (proj1 (proj2 (proj2 (@falsy_entries_skipped
              [("set-cookie", HArray [""; "a=1"; ""])] _))
              "set-cookie" [""; "a=1"; ""] _)).
    + repeat constructor; simpl; intuition discriminate.
    + simpl; tauto.
Defined.

(** C3: for a host header collection and any of its entries whose value is a
    list, [createRemixHeaders] holds that list under the entry's name, and
    when the set is sent back by [sendRemixResponse] the host response holds,
    under the same name, the same values in the same order and number. *)
Theorem header_round_trip hostThrows requestHeaders name vs code responseBody :
  NoDup (keys requestHeaders) ->
  In (name, HArray vs) requestHeaders ->
  let response :=
    mkNodeResponse code (createRemixHeaders requestHeaders) responseBody in
  snd (sendRemixResponse hostThrows response []) = inr tt ->
  NodeHeaders.getAll name (createRemixHeaders requestHeaders) = vs /\
  headerValues name
    (replay (fst (sendRemixResponse hostThrows response []))) = vs.
Proof.
  intros Hnd Hin response Hdone.
  assert (Hget : NodeHeaders.getAll name (createRemixHeaders requestHeaders) = vs).
  { unfold createRemixHeaders.
    now rewrite TranslatorFacts.getAll_copyEntries_array with (vs := vs). }
  split; [exact Hget|].
  pose proof (send_outcome hostThrows response) as Hout.
  destruct (sendRemixResponse hostThrows response []) as [sent [error|u]];
    [discriminate|].
  destruct Hout as (bodyCall & Hbody & ->). cbn [fst].
  rewrite ReplayFacts.replay_sent.
  assert (Hlines : headerLines
            (perform (mkHostResponse (Some (status response))
               (NodeHeaders.lines (responseHeaders response)) [] false)
               bodyCall)
          = NodeHeaders.lines (createRemixHeaders requestHeaders))
    by (destruct bodyCall as [| |[|]| |]; try discriminate; reflexivity).
  unfold headerValues. rewrite Hlines.
  change (NodeHeaders.linesFor name (createRemixHeaders requestHeaders) = vs).
  rewrite HeadersFacts.linesFor_getAll; [exact Hget|].
  apply TranslatorFacts.createRemixHeaders_NoDup.
Qed.

Lemma header_round_trip_witness :
  headerValues "accept"
    (replay (fst (sendRemixResponse quietHost
       (mkNodeResponse 200 (createRemixHeaders mixedHeaders) BodyNull) []))) =
  ["text/html"; "application/json"].
Proof.
  refine (proj2 (@header_round_trip quietHost mixedHeaders "accept"
            ["text/html"; "application/json"] 200 BodyNull _ _ eq_refl)).
  - repeat constructor; simpl; intuition discriminate.
  - simpl; tauto.
Defined.

(** C4: for every standardized response and every host response, the calls
    that [sendRemixResponse] performs are, in this order, the status, then for
    each header name each of its values in their order, then one call for the
    body, which is the only one to write a byte or to end the response.  No
    step is skipped: all of them are performed exactly when the host response
    accepts each of them; and when the sender throws, it is because the host
    response has refused a call of the sequence, every call before that one
    has been performed, in order, and none after it. *)
Theorem send_order hostThrows response :
  let script :=
    ResStatus (status response)
      :: flat_map (fun entry => map (ResAppend (fst entry)) (snd entry))
           (NodeHeaders.raw (responseHeaders response))
      ++ [bodyCall (responseBody response)] in
  isBodyCall (bodyCall (responseBody response)) = true /\
  match sendRemixResponse hostThrows response [] with
  | (sent, inr _) => sent = map OnRes script
  | (sent, inl error) =>
      exists before c after,
        script = before ++ c :: after /\
        sent = map OnRes before /\
        hostThrows sent c = Some error /\
        forall pre c' post,
          before = pre ++ c' :: post ->
          hostThrows (map OnRes pre) c' = None
  end /\
  ((forall before c after,
       script = before ++ c :: after ->
       hostThrows (map OnRes before) c = None) <->
   snd (sendRemixResponse hostThrows response []) = inr tt).
Proof.
  assert (Hflat : forall h,
    flat_map (fun entry : string * list string =>
                map (ResAppend (fst entry)) (snd entry)) h = headerCalls h).
  { intros h. unfold headerCalls, NodeHeaders.lines.
    induction h as [|[k vs] h IH]; simpl; [reflexivity|].
    now rewrite map_app, map_map, IH. }
  unfold NodeHeaders.raw. rewrite Hflat. cbv zeta.
  split; [destruct (responseBody response); reflexivity|].
  rewrite CallFacts.send_script.
  set (script := ResStatus (status response)
                   :: headerCalls (responseHeaders response)
                   ++ [bodyCall (responseBody response)]).
  split.
  - destruct (forOf script (res hostThrows) []) as [sent [error|u]] eqn:E.
    + destruct (CallFacts.calls_first_refusal hostThrows script [] E)
        as (before & c & after & Hs & -> & Hthrow & Hacc).
      exists before, c, after. auto.
    + pose proof (SenderFacts.calls_log hostThrows script []) as H.
      now rewrite E in H.
  - symmetry. apply (CallFacts.calls_return_iff hostThrows script []).
Qed.

Lemma send_order_witness :
  snd (sendRemixResponse quietHost okResponse []) = inr tt.
Proof.
  apply (proj1 (proj2 (proj2 (send_order quietHost okResponse)))).
  intros before c after _. reflexivity.
Defined.

(** C5: for a standardized response whose body is a buffer, when
    [sendRemixResponse] returns, its last call on the host response is
    [res.end(buffer)], no earlier call wrote a byte or ended the response,
    and the host response has received exactly the bytes of the buffer, in
    one write, and is ended. *)
Theorem buffer_body_single_write hostThrows code h data :
  let response := mkNodeResponse code h (BodyBuffer data) in
  snd (sendRemixResponse hostThrows response []) = inr tt ->
  exists before,
    fst (sendRemixResponse hostThrows response []) =
      before ++ [OnRes (ResEnd (Some data))] /\
    forallb (fun c => negb (isBodyCall c)) (writes before) = true /\
    written (replay (fst (sendRemixResponse hostThrows response []))) = [data] /\
    ended (replay (fst (sendRemixResponse hostThrows response []))) = true.
Proof.
  intros response. rewrite send_calls.
  match goal with
  | |- context [forOf ?cs _ []] =>
      pose proof (SenderFacts.calls_log hostThrows cs []) as H;
      destruct (forOf cs _ []) as [sent [error|u]]
  end; [discriminate|].
  intros _. simpl in H. subst sent. cbn [fst].
  exists (map OnRes (ResStatus code :: headerCalls h)).
  change (status response) with code.
  change (responseHeaders response) with h.
  change (responseBody response) with (BodyBuffer data).
  split; [|split].
  - simpl. now rewrite map_app.
  - rewrite ReplayFacts.writes_OnRes. simpl.
    apply ReplayFacts.headerCalls_no_body.
  - change (OnRes (ResStatus code)
              :: map OnRes (headerCalls h ++ [ResEnd (Some data)]))
      with (map OnRes (ResStatus code
                         :: headerCalls h ++ [ResEnd (Some data)])).
    rewrite ReplayFacts.replay_sent. split; reflexivity.
Qed.

Lemma buffer_body_single_write_witness :
  written (replay (fst (sendRemixResponse quietHost
    (mkNodeResponse 200 [("Content-Type", ["text/plain"])]
       (BodyBuffer [x6f; x6b])) []))) = [[x6f; x6b]].
Proof.
  destruct (@buffer_body_single_write quietHost 200
              [("Content-Type", ["text/plain"])] [x6f; x6b] eq_refl)
    as (before & _ & _ & Hwritten & _).
  exact Hwritten.
Defined.

(** C9: a body that is present but is neither a buffer nor an object with a
    [pipe] is treated by [sendRemixResponse] exactly as an absent body: the
    same calls, from any log; and when it returns, its last call is
    [res.end()], no earlier call wrote a byte or ended the response, so the
    host response is ended with no body byte. *)
Theorem other_body_ends_empty hostThrows code h v :
  let response := mkNodeResponse code h (BodyOther v) in
  (forall log,
      sendRemixResponse hostThrows response log =
      sendRemixResponse hostThrows (mkNodeResponse code h BodyNull) log) /\
  (snd (sendRemixResponse hostThrows response []) = inr tt ->
   exists before,
     fst (sendRemixResponse hostThrows response []) =
       before ++ [OnRes (ResEnd None)] /\
     forallb (fun c => negb (isBodyCall c)) (writes before) = true /\
     written (replay (fst (sendRemixResponse hostThrows response []))) = [] /\
     ended (replay (fst (sendRemixResponse hostThrows response []))) = true).
Proof.
  intros response. split; [reflexivity|].
  rewrite send_calls.
  match goal with
  | |- context [forOf ?cs _ []] =>
      pose proof (SenderFacts.calls_log hostThrows cs []) as H;
      destruct (forOf cs _ []) as [sent [error|u]]
  end; [discriminate|].
  intros _. simpl in H. subst sent. cbn [fst].
  exists (map OnRes (ResStatus code :: headerCalls h)).
  change (status response) with code.
  change (responseHeaders response) with h.
  change (responseBody response) with (BodyOther v).
  split; [|split].
  - simpl. now rewrite map_app.
  - rewrite ReplayFacts.writes_OnRes. simpl.
    apply ReplayFacts.headerCalls_no_body.
  - change (OnRes (ResStatus code)
              :: map OnRes (headerCalls h ++ [ResEnd None]))
      with (map OnRes (ResStatus code :: headerCalls h ++ [ResEnd None])).
    rewrite ReplayFacts.replay_sent. split; reflexivity.
Qed.

Lemma other_body_ends_empty_witness :
  let sent := fst (sendRemixResponse quietHost
    (mkNodeResponse 204 [("x-a", ["1"; "2"])] (BodyOther "ok")) []) in
  written (replay sent) = [] /\ ended (replay sent) = true.
Proof.
  destruct (@other_body_ends_empty quietHost 204 [("x-a", ["1"; "2"])] "ok")
    as [_ H].
  destruct (H eq_refl) as (before & _ & _ & Hwritten & Hended).
  split; [exact Hwritten | exact Hended].
Defined.

(** C1, as stated, fails: when [sendRemixResponse] throws at its second
    header, the status and the first header have been written to the host
    response, and [next] is called as well. *)
Lemma failure_while_sending_leaves_writes :
  let run := requestHandler contentTypeOnce quietNext lenient None
               (fun _ _ => inr twoContentTypes) headRequest [] in
  snd (sendRemixResponse contentTypeOnce twoContentTypes []) =
    inl "TypeError: Content-Type cannot be set to an Array" /\
  writes (fst run) =
    [ResStatus 200; ResAppend "Content-Type" "text/html"] /\
  forwarded (fst run) =
    ["TypeError: Content-Type cannot be set to an Array"].
Proof. repeat split; reflexivity. Qed.

(** C1, amended: when building the request or computing the load context
    throws, or the promise of the runtime rejects, nothing is written to the
    host response and the failure value is passed to [next]; when
    [sendRemixResponse] throws, the calls it has performed so far stay on the
    host response and the value it throws is passed to [next]; and every
    execution ends in exactly one of two ways: [sendRemixResponse] has
    returned and [next] has not been called, or [sendRemixResponse] has not
    returned and [next] has been called exactly once. *)
Theorem failure_is_forwarded
  hostThrows nextThrows platform getLoadContext handleRequest req :
  let run :=
    requestHandler hostThrows nextThrows platform getLoadContext handleRequest req [] in
  let returned response :=
    Answers platform getLoadContext handleRequest req response /\
    snd (sendRemixResponse hostThrows response []) = inr tt in
  (forall error,
      FailsBeforeSending platform getLoadContext handleRequest req error ->
      fst run = [Next error]) /\
  (forall response error,
      Answers platform getLoadContext handleRequest req response ->
      snd (sendRemixResponse hostThrows response []) = inl error ->
      fst run = fst (sendRemixResponse hostThrows response []) ++ [Next error]
      /\ forwarded (fst run) = [error]) /\
  (((exists response, returned response) /\ forwarded (fst run) = []) \/
   (~ (exists response, returned response) /\
    exists error, forwarded (fst run) = [error])).
Proof.
  intros run returned.
  assert (Hsent : forall response error,
    Answers platform getLoadContext handleRequest req response ->
    snd (sendRemixResponse hostThrows response []) = inl error ->
    fst run = fst (sendRemixResponse hostThrows response []) ++ [Next error]
    /\ forwarded (fst run) = [error]).
  { intros response error Ha Hs. subst run.
    rewrite (handler_answers hostThrows nextThrows Ha).
    pose proof (send_outcome hostThrows response) as Hout.
    destruct (sendRemixResponse hostThrows response []) as [sent [e|u]];
      [|discriminate].
    simpl in Hs. inversion Hs; subst e. split; [reflexivity|].
    destruct Hout as (before & c & -> & _). simpl.
    now rewrite ReplayFacts.forwarded_app, ReplayFacts.forwarded_OnRes. }
  split; [|split; [exact Hsent|]].
  - intros error Hf. subst run.
    now rewrite (handler_fails_before hostThrows nextThrows Hf).
  - destruct (fails_or_answers platform getLoadContext handleRequest req)
      as [[error Hf]|[response Ha]].
    + right. split.
      * intros [response [[request context E1 E2 E3] _]].
        destruct Hf as [F1|? F1 F2|? ? F1 F2 F3]; congruence.
      * exists error. subst run.
        now rewrite (handler_fails_before hostThrows nextThrows Hf).
    + destruct (snd (sendRemixResponse hostThrows response []))
        as [error|[]] eqn:Hs.
      * right. split.
        -- intros [response' [Ha' Hr]].
           assert (response' = response).
           { destruct Ha as [? ? E1 E2 E3], Ha' as [? ? F1 F2 F3].
             congruence. }
           subst response'. congruence.
        -- exists error. exact (proj2 (Hsent response error Ha Hs)).
      * left. split; [exists response; split; assumption|].
        subst run. rewrite (handler_answers hostThrows nextThrows Ha).
        pose proof (send_outcome hostThrows response) as Hout.
        destruct (sendRemixResponse hostThrows response []) as [sent [e|u]];
          [discriminate|].
        destruct Hout as (bodyCall & _ & ->).
        apply ReplayFacts.forwarded_OnRes.
Qed.

Lemma failure_is_forwarded_witness :
  fst (requestHandler quietHost quietNext lenient
         (Some (fun _ => inl "no session")) (fun _ _ => inr twoContentTypes)
         headRequest []) = [Next "no session"].
Proof.
  refine (proj1 (@failure_is_forwarded quietHost quietNext lenient
            (Some (fun _ => inl "no session"))
            (fun _ _ => inr twoContentTypes) headRequest)
            "no session" _).
  eapply ContextFails; reflexivity.
Defined.

(** C10, as stated, fails: [next] is the caller's function, called from the
    catch block with nothing around it; when it throws, the promise of the
    middleware rejects with what it threw. *)
Lemma next_throws_rejects :
  requestHandler quietHost brokenNext lenient
    (Some (fun _ => inl "no session")) (fun _ _ => inr twoContentTypes)
    headRequest [] =
  ([Next "no session"], inl "Error: next failed").
Proof. reflexivity. Qed.

(** C10, amended: the promise of the middleware resolves whenever [next] is
    not called or the call of [next] returns; it rejects only when [next]
    itself throws, and then with the value [next] threw.  [next] is called
    at most once, as the last thing the middleware does, and only when an
    error occurred, with the value of that error (of a step before sending,
    or of [sendRemixResponse]); when the response has been sent
    ([sendRemixResponse] has returned), [next] is not called and the promise
    resolves. *)
Theorem handler_rejects_only_when_next_throws
  hostThrows nextThrows platform getLoadContext handleRequest req :
  let run :=
    requestHandler hostThrows nextThrows platform getLoadContext handleRequest
      req [] in
  (forwarded (fst run) = [] /\ snd run = inr tt \/
   exists before error,
     fst run = before ++ [Next error] /\ forwarded before = [] /\
     snd run = match nextThrows before error with
               | Some thrownByNext => inl thrownByNext
               | None => inr tt
               end) /\
  (forall response,
      Answers platform getLoadContext handleRequest req response ->
      snd (sendRemixResponse hostThrows response []) = inr tt ->
      forwarded (fst run) = [] /\
      fst run = fst (sendRemixResponse hostThrows response []) /\
      snd run = inr tt) /\
  (forall error,
      In (Next error) (fst run) ->
      FailsBeforeSending platform getLoadContext handleRequest req error \/
      exists response,
        Answers platform getLoadContext handleRequest req response /\
        snd (sendRemixResponse hostThrows response []) = inl error).
Proof.
  intros run. subst run.
  destruct (fails_or_answers platform getLoadContext handleRequest req)
    as [[error Hf]|[response Ha]].
  - rewrite (handler_fails_before hostThrows nextThrows Hf).
    unfold next. cbn [fst snd app]. split; [|split].
    + right. exists [], error. repeat split; reflexivity.
    + intros response [request context E1 E2 E3].
      destruct Hf as [F1|? F1 F2|? ? F1 F2 F3]; congruence.
    + intros e [E|[]]. inversion E; subst. now left.
  - rewrite (handler_answers hostThrows nextThrows Ha).
    pose proof (send_outcome hostThrows response) as Hout.
    assert (Hsame : forall response',
      Answers platform getLoadContext handleRequest req response' ->
      response' = response).
    { intros response' Ha'.
      destruct Ha as [? ? E1 E2 E3], Ha' as [? ? F1 F2 F3]. congruence. }
    destruct (sendRemixResponse hostThrows response []) as [sent [e|[]]] eqn:Hs.
    + destruct Hout as (before & c & -> & _). unfold next. cbn [fst snd].
      split; [|split].
      * right. exists (map OnRes before), e.
        repeat split; try reflexivity. apply ReplayFacts.forwarded_OnRes.
      * intros response' Ha' Hr. apply Hsame in Ha'. subst response'.
        rewrite Hs in Hr. discriminate.
      * intros error Hin. right. exists response. split; [assumption|].
        apply in_app_or in Hin. destruct Hin as [Hin|[E|[]]].
        -- apply in_map_iff in Hin. destruct Hin as (x & Hx & _).
           discriminate.
        -- rewrite Hs. simpl. congruence.
    + destruct Hout as (bodyCall & _ & ->). cbn [fst snd].
      assert (Hfw : forwarded (map OnRes
                      (ResStatus (status response)
                         :: headerCalls (responseHeaders response)
                         ++ [bodyCall])) = [])
        by apply ReplayFacts.forwarded_OnRes.
      split; [|split].
      * left. split; [exact Hfw | reflexivity].
      * intros response' Ha' _. apply Hsame in Ha'. subst response'.
        rewrite Hs. cbn [fst]. repeat split; try reflexivity. exact Hfw.
      * intros error Hin.
        apply in_map_iff in Hin. destruct Hin as (x & Hx & _).
        discriminate.
Qed.

Lemma handler_rejects_only_when_next_throws_witness :
  forwarded (fst (requestHandler quietHost brokenNext lenient None
                    (fun _ _ => inr twoContentTypes) postRequest [])) = [] /\
  snd (requestHandler quietHost brokenNext lenient None
         (fun _ _ => inr twoContentTypes) postRequest []) = inr tt.
Proof.
  destruct (proj1 (proj2 (@handler_rejects_only_when_next_throws quietHost
              brokenNext lenient None (fun _ _ => inr twoContentTypes)
              postRequest)) twoContentTypes) as (Hfw & _ & Hres).
  - eapply RuntimeAnswers; reflexivity.
  - reflexivity.
  - split; [exact Hfw | exact Hres].
Defined.

(** C7: the code at the failing input.  The runtime answers with a stream
    that emits one chunk and then fails; [sendRemixResponse] calls [pipe] and
    returns, the promise of the middleware resolves, the chunk is written,
    the failure of the stream is raised on the stream and goes nowhere:
    [next] is never called, and the host response is never ended. *)
Lemma stream_failure_not_forwarded :
  requestHandler quietHost quietNext lenient None
    (fun _ _ => inr streamedResponse) headRequest [] =
  ([OnRes (ResStatus 200); OnRes (PipeInto brokenStream)], inr tt) /\
  history quietHost quietNext lenient None (fun _ _ => inr streamedResponse)
    headRequest =
  [OnRes (ResStatus 200); OnRes (PipeInto brokenStream);
   OnRes (ResWrite [x68; x69]); StreamError "ECONNRESET"] /\
  forwarded (history quietHost quietNext lenient None
               (fun _ _ => inr streamedResponse) headRequest) = [] /\
  ended (replay (history quietHost quietNext lenient None
                   (fun _ _ => inr streamedResponse) headRequest)) = false.
Proof. repeat split; reflexivity. Qed.

(** * Further properties *)

(** ** The header set, entry by entry *)

Module ExactFacts.
Import NodeHeaders.

Lemma has_app name (h h' : t) : has name (h ++ h') = has name h || has name h'.
Proof. unfold has. apply existsb_app. Qed.

(** Under a name the set does not have yet, [append] and [set] add an entry
    at the end. *)
Lemma append_fresh name value h :
  has name h = false -> append name value h = h ++ [(name, [value])].
Proof.
  induction h as [|[k vs] rest IH]; simpl; [reflexivity|].
  destruct (k =? name); simpl; [discriminate|].
  intros Hn. now rewrite IH.
Qed.

Lemma set_fresh name value h :
  has name h = false -> set name value h = h ++ [(name, [value])].
Proof.
  induction h as [|[k vs] rest IH]; simpl; [reflexivity|].
  destruct (k =? name); simpl; [discriminate|].
  intros Hn. now rewrite IH.
Qed.

(** Under the name of its last entry, when no other has it, [append] extends
    that entry. *)
Lemma append_last name value vs h :
  has name h = false ->
  append name value (h ++ [(name, vs)]) = h ++ [(name, vs ++ [value])].
Proof.
  induction h as [|[k ws] rest IH]; simpl.
  - now rewrite String.eqb_refl.
  - destruct (k =? name); simpl; [discriminate|].
    intros Hn. now rewrite IH.
Qed.

Lemma appends_last name vs ws h :
  has name h = false ->
  fold_left (fun h value => append name value h) vs (h ++ [(name, ws)]) =
  h ++ [(name, ws ++ vs)].
Proof.
  revert ws. induction vs as [|v vs IH]; simpl; intros ws Hn.
  - now rewrite app_nil_r.
  - rewrite append_last by assumption. rewrite IH by assumption.
    now rewrite <- app_assoc.
Qed.

(** One entry of the host collection, under a name the set does not have. *)
Lemma copyEntry_fresh h entry :
  has (fst entry) h = false -> copyEntry h entry = h ++ keptEntry entry.
Proof.
  destruct entry as [key [|s|vs]]; unfold keptEntry; simpl; intros Hn.
  - now rewrite app_nil_r.
  - destruct (s =? ""); simpl; [now rewrite app_nil_r|].
    now apply set_fresh.
  - destruct vs as [|v vs]; simpl; [now rewrite app_nil_r|].
    rewrite append_fresh by assumption.
    now rewrite appends_last.
Qed.

Lemma has_keptEntry name entry :
  fst entry <> name -> has name (keptEntry entry) = false.
Proof.
  intros Hne. apply String.eqb_neq in Hne. unfold keptEntry.
  destruct (valuesOf (snd entry)); simpl; [reflexivity|].
  now rewrite Hne.
Qed.

Lemma copyEntries_exact l h :
  NoDup (keys l) ->
  (forall name, In name (keys l) -> has name h = false) ->
  fold_left copyEntry l h = h ++ flat_map keptEntry l.
Proof.
  revert h. induction l as [|entry l IH]; simpl; intros h Hnd Hfresh.
  - now rewrite app_nil_r.
  - inversion Hnd as [|? ? Hk Hl]; subst.
    rewrite copyEntry_fresh by (apply Hfresh; now left).
    rewrite IH; [now rewrite <- app_assoc | assumption |].
    intros name Hin. rewrite has_app, Hfresh by (now right).
    apply has_keptEntry. intros E. apply Hk. now rewrite E.
Qed.

Lemma createRemixHeaders_exact l :
  NoDup (keys l) -> createRemixHeaders l = flat_map keptEntry l.
Proof.
  intros Hnd. unfold createRemixHeaders.
  now rewrite copyEntries_exact.
Qed.

(** A scalar entry with a non-empty string leaves that string as the only
    value of its name. *)
Lemma getAll_copyEntries_scalar l h name s :
  NoDup (keys l) -> In (name, HString s) l -> s <> "" ->
  getAll name (fold_left copyEntry l h) = [s].
Proof.
  revert h. induction l as [|[key values] l IH]; simpl; intros h Hnd Hin Hs;
    [contradiction|].
  inversion Hnd as [|? ? Hk Hl]; subst.
  destruct Hin as [E|Hin].
  - inversion E; subst.
    rewrite TranslatorFacts.getAll_copyEntries_absent by assumption.
    simpl. apply String.eqb_neq in Hs. rewrite Hs. simpl.
    now rewrite HeadersFacts.getAll_set, String.eqb_refl.
  - now apply IH.
Qed.

(** An entry that contributes no value brings no name into the set. *)
Lemma has_copyEntries_silent l h name values :
  NoDup (keys l) -> In (name, values) l -> valuesOf values = [] ->
  has name (fold_left copyEntry l h) = has name h.
Proof.
  revert h. induction l as [|[key v] l IH]; simpl; intros h Hnd Hin Hv;
    [contradiction|].
  inversion Hnd as [|? ? Hk Hl]; subst.
  destruct Hin as [E|Hin].
  - inversion E; subst.
    rewrite TranslatorFacts.has_copyEntries_absent by assumption.
    destruct values as [|s|vs]; simpl in *; [reflexivity| |].
    + destruct (s =? ""); [reflexivity | discriminate].
    + now subst vs.
  - rewrite (IH _ Hl Hin Hv).
    apply TranslatorFacts.has_copyEntry_other. intros ->.
    apply Hk. change name with (fst (name, values)). now apply in_map.
Qed.

End ExactFacts.

Module ShapeFacts.
Import NodeHeaders.

Lemma append_populated name value h :
  populated h -> populated (append name value h).
Proof.
  unfold populated.
  induction h as [|[k vs] rest IH]; simpl; intros H.
  - constructor; [discriminate | constructor].
  - inversion H as [|? ? Hk Hrest]; subst.
    destruct (k =? name); constructor; simpl; auto.
    now destruct vs.
Qed.

Lemma set_populated name value h :
  populated h -> populated (set name value h).
Proof.
  unfold populated.
  induction h as [|[k vs] rest IH]; simpl; intros H.
  - constructor; [discriminate | constructor].
  - inversion H as [|? ? Hk Hrest]; subst.
    destruct (k =? name); constructor; simpl; auto.
    discriminate.
Qed.

Lemma copyEntries_populated l h :
  populated h -> populated (fold_left copyEntry l h).
Proof.
  revert h. induction l as [|[key values] l IH]; simpl; intros h H;
    [assumption|].
  apply IH. destruct values as [|s|vs]; simpl; [assumption| |].
  - destruct (negb (s =? "")); [now apply set_populated | assumption].
  - clear IH. revert h H. induction vs as [|v vs IHv]; simpl; intros h H;
      [assumption|].
    apply IHv. now apply append_populated.
Qed.

Lemma lines_kept l :
  lines (flat_map keptEntry l) =
  flat_map (fun entry => map (pair (fst entry)) (valuesOf (snd entry))) l.
Proof.
  unfold lines. induction l as [|entry l IH]; simpl; [reflexivity|].
  rewrite flat_map_app, IH. f_equal.
  unfold keptEntry. destruct (valuesOf (snd entry)); simpl; [reflexivity|].
  now rewrite app_nil_r.
Qed.

End ShapeFacts.

(** ** createRemixHeaders, further *)

(** X1: for a host collection (its keys distinct), the header set that
    [createRemixHeaders] returns is, entry for entry and in the order of the
    collection, the entries that contribute a value: a non-empty string
    becomes the single value of its name, a non-empty list becomes the values
    of its name, and [undefined], [""] and the empty list leave nothing. *)
Theorem headers_entry_by_entry requestHeaders :
  NoDup (keys requestHeaders) ->
  NodeHeaders.raw (createRemixHeaders requestHeaders) =
  flat_map keptEntry requestHeaders.
Proof.
  intros Hnd. unfold NodeHeaders.raw.
  now apply ExactFacts.createRemixHeaders_exact.
Qed.

Lemma headers_entry_by_entry_witness :
  NodeHeaders.raw (createRemixHeaders mixedHeaders) =
  [("accept", ["text/html"; "application/json"]); ("host", ["example.com"])].
Proof.
  refine (@headers_entry_by_entry mixedHeaders _).
  repeat constructor; simpl; intuition discriminate.
Defined.

(** X2: a scalar entry whose string is not empty is set once: the header set
    holds that string, and nothing else, under the entry's name. *)
Theorem scalar_entry_single_value requestHeaders name s :
  NoDup (keys requestHeaders) ->
  In (name, HString s) requestHeaders ->
  s <> "" ->
  NodeHeaders.getAll name (createRemixHeaders requestHeaders) = [s].
Proof.
  intros Hnd Hin Hs. unfold createRemixHeaders.
  now apply ExactFacts.getAll_copyEntries_scalar.
Qed.

Lemma scalar_entry_single_value_witness :
  NodeHeaders.getAll "host" (createRemixHeaders mixedHeaders) =
  ["example.com"].
Proof.
  refine (@scalar_entry_single_value mixedHeaders "host" "example.com" _ _ _).
  - repeat constructor; simpl; intuition discriminate.
  - simpl; tauto.
  - discriminate.
Defined.

(** X3: an entry whose value is the empty list is truthy, yet it appends
    nothing: the header set has no entry and no value under its name. *)
Theorem empty_list_entry_no_name requestHeaders name :
  NoDup (keys requestHeaders) ->
  In (name, HArray []) requestHeaders ->
  truthy (HArray []) = true /\
  NodeHeaders.has name (createRemixHeaders requestHeaders) = false /\
  NodeHeaders.getAll name (createRemixHeaders requestHeaders) = [].
Proof.
  intros Hnd Hin. split; [reflexivity|]. unfold createRemixHeaders. split.
  - now rewrite ExactFacts.has_copyEntries_silent with (values := HArray []).
  - now rewrite TranslatorFacts.getAll_copyEntries_array with (vs := []).
Qed.

Lemma empty_list_entry_no_name_witness :
  NodeHeaders.has "set-cookie"
    (createRemixHeaders [("set-cookie", HArray []); ("host", HString "a")])
  = false.
Proof.
  refine (proj1 (proj2 (@empty_list_entry_no_name
            [("set-cookie", HArray []); ("host", HString "a")]
            "set-cookie" _ _))).
  - repeat constructor; simpl; intuition discriminate.
  - simpl; tauto.
Defined.

(** X4: whatever the host collection, the header set that
    [createRemixHeaders] returns has each name once and no name with an empty
    list of values. *)
Theorem header_set_well_formed requestHeaders :
  NoDup (keys (NodeHeaders.raw (createRemixHeaders requestHeaders))) /\
  forall name values,
    In (name, values) (NodeHeaders.raw (createRemixHeaders requestHeaders)) ->
    values <> [].
Proof.
  split.
  - apply TranslatorFacts.createRemixHeaders_NoDup.
  - intros name values Hin.
    assert (H : populated (createRemixHeaders requestHeaders))
      by (apply ShapeFacts.copyEntries_populated; constructor).
    unfold populated in H. rewrite Forall_forall in H.
    exact (H _ Hin).
Qed.

Lemma header_set_well_formed_witness :
  ["1"; "2"] <> [] /\
  NoDup (keys (NodeHeaders.raw (createRemixHeaders
                 [("a", HArray ["1"]); ("a", HArray ["2"])]))).
Proof.
  destruct (header_set_well_formed [("a", HArray ["1"]); ("a", HArray ["2"])])
    as [Hnd Hne].
  split; [|exact Hnd].
  apply (Hne "a"). simpl. now left.
Defined.

(** ** sendRemixResponse, further *)

(** X5: when a host collection (its keys distinct) is translated by
    [createRemixHeaders] and sent back by [sendRemixResponse], the header
    lines of the host response are, in the order of the collection, one line
    for each non-empty scalar and one for each element of each list: scalars
    make the round trip as well, and the order of the names is kept. *)
Theorem headers_full_round_trip hostThrows requestHeaders code responseBody :
  NoDup (keys requestHeaders) ->
  let response :=
    mkNodeResponse code (createRemixHeaders requestHeaders) responseBody in
  snd (sendRemixResponse hostThrows response []) = inr tt ->
  headerLines (replay (fst (sendRemixResponse hostThrows response []))) =
  flat_map (fun entry => map (pair (fst entry)) (valuesOf (snd entry)))
    requestHeaders.
Proof.
  intros Hnd response Hdone.
  rewrite (CallFacts.send_returned hostThrows response Hdone).
  rewrite ReplayFacts.replay_sent.
  rewrite <- ShapeFacts.lines_kept.
  rewrite <- (@ExactFacts.createRemixHeaders_exact requestHeaders Hnd).
  destruct responseBody as [|data|s|v]; reflexivity.
Qed.

Lemma headers_full_round_trip_witness :
  headerLines (replay (fst (sendRemixResponse quietHost
    (mkNodeResponse 200 (createRemixHeaders mixedHeaders) BodyNull) []))) =
  [("accept", "text/html"); ("accept", "application/json");
   ("host", "example.com")].
Proof.
  refine (@headers_full_round_trip quietHost mixedHeaders 200 BodyNull _
            eq_refl).
  repeat constructor; simpl; intuition discriminate.
Defined.

(** X6: when [sendRemixResponse] returns for a response whose body is not a
    stream, the host response holds the status of the response, one header
    line for each value of each name in the order of the header set, the
    bytes of the buffer in one write if the body is a buffer and no byte
    otherwise, and it is ended. *)
Theorem sent_response_state hostThrows response :
  isStream (responseBody response) = false ->
  snd (sendRemixResponse hostThrows response []) = inr tt ->
  replay (fst (sendRemixResponse hostThrows response [])) =
  mkHostResponse (Some (status response))
    (NodeHeaders.lines (responseHeaders response))
    (bodyWrites (responseBody response)) true.
Proof.
  intros Hbody Hdone.
  rewrite (CallFacts.send_returned hostThrows response Hdone).
  rewrite ReplayFacts.replay_sent.
  destruct (responseBody response); try discriminate; reflexivity.
Qed.

Lemma sent_response_state_witness :
  replay (fst (sendRemixResponse quietHost okResponse [])) =
  mkHostResponse (Some 200%Z)
    [("Content-Type", "text/plain"); ("Vary", "a"); ("Vary", "b")]
    [[x6f; x6b]] true.
Proof.
  exact (@sent_response_state quietHost okResponse eq_refl eq_refl).
Defined.

(** X7: [sendRemixResponse] returns exactly when the host response accepts
    every one of its calls, each after the ones before it; when it throws, it
    is at the first call the host response refuses, the value thrown is the
    one of that refusal, every call before it has been performed and none
    after it. *)
Theorem send_returns_iff_accepted hostThrows response :
  let script :=
    ResStatus (status response)
      :: headerCalls (responseHeaders response)
      ++ [bodyCall (responseBody response)] in
  (snd (sendRemixResponse hostThrows response []) = inr tt <->
   forall before c after,
     script = before ++ c :: after ->
     hostThrows (map OnRes before) c = None) /\
  (forall error,
      snd (sendRemixResponse hostThrows response []) = inl error ->
      exists before c after,
        script = before ++ c :: after /\
        fst (sendRemixResponse hostThrows response []) = map OnRes before /\
        hostThrows (map OnRes before) c = Some error /\
        forall pre c' post,
          before = pre ++ c' :: post ->
          hostThrows (map OnRes pre) c' = None).
Proof.
  intros script. rewrite CallFacts.send_script. fold script. split.
  - destruct (forOf script (res hostThrows) []) as [sent [e|[]]] eqn:E.
    + split; [discriminate|]. intros H.
      apply (CallFacts.calls_return_iff hostThrows script []) in H.
      rewrite E in H. discriminate.
    + split; [|reflexivity]. intros _.
      apply (CallFacts.calls_return_iff hostThrows script []).
      now rewrite E.
  - intros error Herr.
    destruct (forOf script (res hostThrows) []) as [sent [e|u]] eqn:E;
      [|discriminate].
    simpl in Herr. inversion Herr; subst e.
    destruct (CallFacts.calls_first_refusal hostThrows script [] E)
      as (before & c & after & Hs & -> & Hthrow & Hacc).
    exists before, c, after. auto.
Qed.

Lemma send_returns_iff_accepted_witness :
  exists before c after,
    ResStatus (status twoContentTypes)
      :: headerCalls (responseHeaders twoContentTypes)
      ++ [bodyCall (responseBody twoContentTypes)] = before ++ c :: after /\
    fst (sendRemixResponse contentTypeOnce twoContentTypes []) =
      map OnRes before /\
    contentTypeOnce (map OnRes before) c =
      Some "TypeError: Content-Type cannot be set to an Array".
Proof.
  destruct (proj2 (send_returns_iff_accepted contentTypeOnce twoContentTypes)
              "TypeError: Content-Type cannot be set to an Array" eq_refl)
    as (before & c & after & Hs & Hsent & Hthrow & _).
  exists before, c, after. auto.
Defined.

(** The log of the middleware whose sender has returned. *)
Lemma handler_sent hostThrows nextThrows platform getLoadContext handleRequest req response :
  Answers platform getLoadContext handleRequest req response ->
  snd (sendRemixResponse hostThrows response []) = inr tt ->
  requestHandler hostThrows nextThrows platform getLoadContext handleRequest req [] =
  (map OnRes (ResStatus (status response)
                :: headerCalls (responseHeaders response)
                ++ [bodyCall (responseBody response)]), inr tt).
Proof.
  intros Ha Hdone. rewrite (handler_answers hostThrows nextThrows Ha).
  pose proof (CallFacts.send_returned hostThrows response Hdone) as Hsent.
  destruct (sendRemixResponse hostThrows response []) as [sent [e|[]]];
    [discriminate|].
  simpl in Hsent. now subst sent.
Qed.

(** ** The middleware, further *)

(** X8: when the body of the response is a stream, the promise of the
    middleware resolves as soon as [pipe] has been called: at that moment the
    adapter has written no body byte and has not ended the response, which is
    left to the piped stream; [next] has not been called. *)
Theorem stream_body_left_open
  hostThrows nextThrows platform getLoadContext handleRequest req response s :
  Answers platform getLoadContext handleRequest req response ->
  responseBody response = BodyStream s ->
  snd (sendRemixResponse hostThrows response []) = inr tt ->
  let run :=
    requestHandler hostThrows nextThrows platform getLoadContext handleRequest req [] in
  snd run = inr tt /\
  (exists before, fst run = before ++ [OnRes (PipeInto s)]) /\
  written (replay (fst run)) = [] /\
  ended (replay (fst run)) = false /\
  forwarded (fst run) = [] /\
  aftermath (fst run) = pipeRelay s.
Proof.
  intros Ha Hbody Hdone run. subst run.
  rewrite (handler_sent hostThrows nextThrows Ha Hdone). cbn [fst snd].
  split; [reflexivity|]. split; [|split; [|split; [|split]]].
  - exists (map OnRes (ResStatus (status response)
                         :: headerCalls (responseHeaders response))).
    now rewrite Hbody, app_comm_cons, map_app.
  - now rewrite ReplayFacts.replay_sent, Hbody.
  - now rewrite ReplayFacts.replay_sent, Hbody.
  - apply ReplayFacts.forwarded_OnRes.
  - now rewrite CallFacts.aftermath_sent, Hbody.
Qed.

Lemma stream_body_left_open_witness :
  ended (replay (fst (requestHandler quietHost quietNext lenient None
                        (fun _ _ => inr goodStreamResponse) postRequest [])))
  = false.
Proof.
  refine (proj1 (proj2 (proj2 (proj2 (@stream_body_left_open quietHost quietNext lenient
            None (fun _ _ => inr goodStreamResponse) postRequest
            goodStreamResponse goodStream _ eq_refl eq_refl))))).
  eapply RuntimeAnswers; reflexivity.
Defined.

(** X9: whenever the middleware calls [next], the adapter has not ended the
    host response, has written no body byte to it and has piped no stream
    into it: the response is still open for the error handling of the host. *)
Theorem next_leaves_response_open
  hostThrows nextThrows platform getLoadContext handleRequest req :
  let run :=
    requestHandler hostThrows nextThrows platform getLoadContext handleRequest req [] in
  forwarded (fst run) <> [] ->
  ended (replay (fst run)) = false /\
  written (replay (fst run)) = [] /\
  aftermath (fst run) = [].
Proof.
  intros run. subst run.
  destruct (fails_or_answers platform getLoadContext handleRequest req)
    as [[error Hf]|[response Ha]].
  - rewrite (handler_fails_before hostThrows nextThrows Hf). unfold next.
    cbn [fst app]. intros _.
    repeat split; reflexivity.
  - rewrite (handler_answers hostThrows nextThrows Ha).
    pose proof (send_outcome hostThrows response) as Hout.
    destruct (sendRemixResponse hostThrows response []) as [sent [e|[]]].
    + destruct Hout as (before & c & -> & _ & Hnb). unfold next. cbn [fst]. intros _.
      rewrite CallFacts.replay_app_Next. unfold replay.
      rewrite ReplayFacts.writes_OnRes.
      destruct (CallFacts.no_body_call_untouched before freshResponse Hnb)
        as [-> ->].
      repeat split; try reflexivity.
      now rewrite CallFacts.no_body_call_aftermath.
    + destruct Hout as (c & _ & ->). cbn [fst]. intros H. exfalso. apply H.
      exact (ReplayFacts.forwarded_OnRes
               (ResStatus (status response)
                  :: headerCalls (responseHeaders response) ++ [c])).
Qed.

Lemma next_leaves_response_open_witness :
  ended (replay (fst (requestHandler contentTypeOnce quietNext lenient None
                        (fun _ _ => inr twoContentTypes) headRequest [])))
  = false.
Proof.
  refine (proj1 (@next_leaves_response_open contentTypeOnce quietNext lenient None
            (fun _ _ => inr twoContentTypes) headRequest _)).
  discriminate.
Defined.

(** X10: when the body of the response is a stream that ends, and the host
    response accepts the calls of the sender, the whole handling leaves the
    host response with the status, the header lines, the chunks of the stream
    in their order and nothing else, ended; [next] is never called. *)
Theorem streamed_body_delivered
  hostThrows nextThrows platform getLoadContext handleRequest req response s :
  Answers platform getLoadContext handleRequest req response ->
  responseBody response = BodyStream s ->
  finish s = Ends ->
  snd (sendRemixResponse hostThrows response []) = inr tt ->
  replay (history hostThrows nextThrows platform getLoadContext handleRequest req) =
    mkHostResponse (Some (status response))
      (NodeHeaders.lines (responseHeaders response)) (emits s) true /\
  forwarded (history hostThrows nextThrows platform getLoadContext handleRequest req) = [].
Proof.
  intros Ha Hbody Hends Hdone. unfold history.
  rewrite (handler_sent hostThrows nextThrows Ha Hdone). cbn [fst].
  rewrite CallFacts.aftermath_sent, Hbody. unfold pipeRelay. rewrite Hends.
  rewrite <- (map_map (fun chunk => ResWrite chunk) OnRes).
  split.
  - rewrite CallFacts.replay_app, ReplayFacts.replay_sent.
    rewrite CallFacts.writes_append, ReplayFacts.writes_OnRes.
    rewrite fold_left_app, CallFacts.perform_writes. reflexivity.
  - rewrite !ReplayFacts.forwarded_app, !ReplayFacts.forwarded_OnRes.
    reflexivity.
Qed.

Lemma streamed_body_delivered_witness :
  replay (history quietHost quietNext lenient None (fun _ _ => inr goodStreamResponse)
            postRequest) =
  mkHostResponse (Some 200%Z) [("Content-Type", "text/plain")]
    [[x68; x69]; [x21]] true.
Proof.
  refine (proj1 (@streamed_body_delivered quietHost quietNext lenient None
            (fun _ _ => inr goodStreamResponse) postRequest
            goodStreamResponse goodStream _ eq_refl eq_refl eq_refl)).
  eapply RuntimeAnswers; reflexivity.
Defined.

(** X11: for a request that the runtime does not answer with a streamed
    body, the middleware settles in exactly one of two states: the adapter has
    ended the host response and [next] has not been called, or [next] has
    been called and the adapter has not ended the host response. *)
Theorem ended_or_forwarded
  hostThrows nextThrows platform getLoadContext handleRequest req :
  (forall response,
      Answers platform getLoadContext handleRequest req response ->
      isStream (responseBody response) = false) ->
  let run :=
    requestHandler hostThrows nextThrows platform getLoadContext handleRequest req [] in
  (ended (replay (fst run)) = true /\ forwarded (fst run) = []) \/
  (ended (replay (fst run)) = false /\
   exists error, forwarded (fst run) = [error]).
Proof.
  intros Hbody run. subst run.
  destruct (fails_or_answers platform getLoadContext handleRequest req)
    as [[error Hf]|[response Ha]].
  - rewrite (handler_fails_before hostThrows nextThrows Hf). unfold next.
    cbn [fst app]. right.
    split; [reflexivity|]. now exists error.
  - specialize (Hbody response Ha).
    destruct (snd (sendRemixResponse hostThrows response [])) as [e|[]] eqn:Hs.
    + right. rewrite (handler_answers hostThrows nextThrows Ha).
      pose proof (send_outcome hostThrows response) as Hout.
      destruct (sendRemixResponse hostThrows response []) as [sent [e'|u]];
        [|discriminate].
      simpl in Hs. inversion Hs; subst e'.
      destruct Hout as (before & c & -> & _ & Hnb). unfold next. cbn [fst]. split.
      * rewrite CallFacts.replay_app_Next. unfold replay.
        rewrite ReplayFacts.writes_OnRes.
        now destruct (CallFacts.no_body_call_untouched before freshResponse
                        Hnb) as [_ ->].
      * exists e.
        now rewrite ReplayFacts.forwarded_app, ReplayFacts.forwarded_OnRes.
    + left. rewrite (handler_sent hostThrows nextThrows Ha Hs). cbn [fst]. split.
      * rewrite ReplayFacts.replay_sent.
        destruct (responseBody response) as [|data|s|v];
          try discriminate; reflexivity.
      * apply ReplayFacts.forwarded_OnRes.
Qed.

Lemma ended_or_forwarded_witness :
  let run := requestHandler quietHost quietNext lenient None (fun _ _ => inr okResponse)
               headRequest [] in
  (ended (replay (fst run)) = true /\ forwarded (fst run) = []) \/
  (ended (replay (fst run)) = false /\
   exists error, forwarded (fst run) = [error]).
Proof.
  refine (@ended_or_forwarded quietHost quietNext lenient None
            (fun _ _ => inr okResponse) headRequest _).
  intros response [request context E1 E2 E3].
  inversion E3. reflexivity.
Defined.

(** ** createRemixRequest, further *)

(** X12: [createRemixRequest] calls the URL constructor on [req.url] and the
    base [protocol://host], where a missing Host header is rendered as the
    word "undefined"; when that constructor throws, [createRemixRequest]
    throws the same value, for every method.  A request that it returns has
    the URL the constructor gave, the method of the host request in upper
    case, the translated headers, and a body exactly when the method, as the
    host request writes it, is neither "GET" nor "HEAD"; a request with a
    body is never a GET or a HEAD.  So a method that is "get" or "head" in
    another letter case never yields a request: [createRemixRequest]
    throws. *)
Theorem request_building platform req :
  let base :=
    (protocol req ++ "://" ++
     match hostHeader req with Some host => host | None => "undefined" end)%string in
  (forall error,
      newURL platform (url req) base = inl error ->
      createRemixRequest platform req = inl error) /\
  (forall request,
      createRemixRequest platform req = inr request ->
      newURL platform (url req) base = inr (requestUrl request) /\
      headersThrow platform (headers req) = None /\
      requestMethod request = toUpperCase (method req) /\
      requestHeaders request = createRemixHeaders (headers req) /\
      (requestBody request = None <->
       method req = "GET" \/ method req = "HEAD") /\
      (requestBody request <> None ->
       requestMethod request <> "GET" /\ requestMethod request <> "HEAD")) /\
  (method req <> "GET" -> method req <> "HEAD" ->
   toUpperCase (method req) = "GET" \/ toUpperCase (method req) = "HEAD" ->
   exists error, createRemixRequest platform req = inl error).
Proof.
  intros base. unfold createRemixRequest.
  change (protocol req ++ "://" ++ template (hostHeader req))%string with base.
  destruct (newURL platform (url req) base) as [e|href].
  { split; [intros error E; inversion E; reflexivity|].
    split; [discriminate|]. intros _ _ _. now exists e. }
  split; [discriminate|].
  destruct (headersThrow platform (headers req)) as [e|].
  { split; [discriminate|]. intros _ _ _. now exists e. }
  unfold newNodeRequest.
  destruct (method req =? "GET") eqn:Hget.
  { apply String.eqb_eq in Hget. simpl. split.
    - intros request.
      destruct (requestThrows platform _ _ _ _); [discriminate|].
      intros E; inversion E; subst; clear E. cbn.
      repeat split; try reflexivity; try (now left); try congruence.
    - intros Hne. contradiction. }
  destruct (method req =? "HEAD") eqn:Hhead.
  { apply String.eqb_eq in Hhead. simpl. split.
    - intros request.
      destruct (requestThrows platform _ _ _ _); [discriminate|].
      intros E; inversion E; subst; clear E. cbn.
      repeat split; try reflexivity; try (now right); try congruence.
    - intros _ Hne. contradiction. }
  apply String.eqb_neq in Hget, Hhead. cbn [negb andb].
  destruct ((toUpperCase (method req) =? "GET")
            || (toUpperCase (method req) =? "HEAD")) eqn:Hup.
  - split; [discriminate|]. intros _ _ _. eexists. reflexivity.
  - apply orb_false_elim in Hup. destruct Hup as [Hug Huh].
    apply String.eqb_neq in Hug, Huh. split.
    + intros request.
      destruct (requestThrows platform _ _ _ _); [discriminate|].
      intros E; inversion E; subst; clear E. cbn.
      repeat split; try reflexivity; try assumption; try discriminate.
      intros [H|H]; contradiction.
    + intros _ _ [H|H]; contradiction.
Qed.

Lemma request_building_witness :
  let req := mkHostRequest "http" None "/a" "get" [] [[x21]] in
  method req <> "GET" /\ method req <> "HEAD" /\
  toUpperCase (method req) = "GET" /\
  exists error, createRemixRequest lenient req = inl error.
Proof.
  intros req.
  split; [discriminate|]. split; [discriminate|]. split; [reflexivity|].
  apply (proj2 (proj2 (request_building lenient req)));
    [discriminate | discriminate | now left].
Defined.
